(** * Public road generation of OpenTTD_PatchPack: [src/road.cpp]

    A shallow embedding of the road helpers of [road.cpp]
    ([IsPossibleCrossing], [CleanUpRoadBits]) and of the public-road
    generator ([PublicRoad_CalculateG], [PublicRoad_CalculateH],
    [CanBuildRoadFromTo], [PublicRoad_GetNeighbours],
    [PublicRoad_FoundEndNode], [GeneratePublicRoads]), followed by the
    properties of the specification that concern them.

    Conventions.
    - [TileIndex], [RoadBits], [Slope], [Owner] ... are machine integers,
      embedded in [Z]; bit operations are those of [Z], and the places where
      32-bit arithmetic wraps are written with [uint32] and [int32].
    - The map array is a function from tile index to a record of the
      answers that the accessors of the map headers give for that tile.
    - A failed [assert], an undefined shift and a dereferenced null pointer
      make a function return [None]. *)

From Stdlib Require Import ZArith List Bool Lia Permutation Sorted.
Import ListNotations.
Open Scope Z_scope.

(* ===================================================================== *)
(** * Part I: the program *)
(* ===================================================================== *)

(** ** Machine integers *)

Definition uint32 (z : Z) : Z := z mod 2 ^ 32.
Definition int32 (z : Z) : Z := (z + 2 ^ 31) mod 2 ^ 32 - 2 ^ 31.

(** Modelled from the spec: [GB] of core/bitmath_func.hpp (not among the
    sources), the [n] bits of [x] from bit [s] on; the spec calls a road-bit
    set a small bitmask over the four directions. *)
Definition GB (x s n : Z) : Z := Z.land (Z.shiftr x s) (Z.ones n).

(** The option monad carries assertion failures. *)
Definition bind {A B : Type} (x : option A) (f : A -> option B) : option B :=
  match x with
  | Some a => f a
  | None => None
  end.

Notation "x <- e ;; k" := (bind e (fun x => k))
  (at level 61, e at next level, right associativity).

Definition assert (b : bool) : option unit := if b then Some tt else None.

(** ** Directions and road bits (direction_type.h, road_type.h) *)

(** Modelled from the spec: the enum [DiagDirection] of direction_type.h
    (not among the sources): the four cardinal values of the spec's
    Direction, in the order [DIAGDIR_BEGIN .. DIAGDIR_END - 1]. *)
Inductive DiagDirection : Type :=
| DIAGDIR_NE
| DIAGDIR_SE
| DIAGDIR_SW
| DIAGDIR_NW.

(** The value of the enumerator. *)
Definition DiagDirection_val (d : DiagDirection) : Z :=
  match d with
  | DIAGDIR_NE => 0
  | DIAGDIR_SE => 1
  | DIAGDIR_SW => 2
  | DIAGDIR_NW => 3
  end.

(** The range of [for (d = DIAGDIR_BEGIN; d < DIAGDIR_END; d++)]. *)
Definition all_diagdirs : list DiagDirection :=
  [DIAGDIR_NE; DIAGDIR_SE; DIAGDIR_SW; DIAGDIR_NW].

(** Modelled from the spec: [ReverseDiagDir] of direction_func.h (not among
    the sources): the mirrored direction, [2 ^ d]. *)
Definition ReverseDiagDir (d : DiagDirection) : DiagDirection :=
  match d with
  | DIAGDIR_NE => DIAGDIR_SW
  | DIAGDIR_SE => DIAGDIR_NW
  | DIAGDIR_SW => DIAGDIR_NE
  | DIAGDIR_NW => DIAGDIR_SE
  end.

(** Modelled from the spec: the enum [Axis] of direction_type.h (not among
    the sources): the two axes of the grid. *)
Inductive Axis : Type := AXIS_X | AXIS_Y.

(** Modelled from the spec: [DiagDirToAxis] of direction_func.h (not among
    the sources): the axis a direction runs along, [d & 1]. *)
Definition DiagDirToAxis (d : DiagDirection) : Axis :=
  if Z.land (DiagDirection_val d) 1 =? 0 then AXIS_X else AXIS_Y.

(** Modelled from the spec: the enum [RoadBits] of road_type.h (not among
    the sources): the spec's road-bit set, a bitmask with one bit for each
    of the four directions. *)
Definition RoadBits := Z.
Definition ROAD_NONE : RoadBits := 0.
Definition ROAD_NW : RoadBits := 1.
Definition ROAD_SW : RoadBits := 2.
Definition ROAD_SE : RoadBits := 4.
Definition ROAD_NE : RoadBits := 8.

(** Modelled from the spec: [DiagDirToRoadBits] of road_func.h (not among
    the sources): the road bit of a direction, [ROAD_NW << (3 ^ d)]. *)
Definition DiagDirToRoadBits (d : DiagDirection) : RoadBits :=
  Z.shiftl ROAD_NW (Z.lxor 3 (DiagDirection_val d)).

(** Modelled from the spec: [MirrorRoadBits] of road_func.h (not among the
    sources): every bit replaced by the bit of the opposite direction,
    [GB(r, 0, 2) << 2 | GB(r, 2, 2)]. *)
Definition MirrorRoadBits (r : RoadBits) : RoadBits :=
  Z.lor (Z.shiftl (GB r 0 2) 2) (GB r 2 2).

(** Modelled from the spec: the enums [RoadType] and [RoadTypes] of
    road_type.h (not among the sources): the spec's road sub-types, and
    sets of them as bitmasks. *)
Inductive RoadType : Type := ROADTYPE_ROAD | ROADTYPE_TRAM.

Definition RoadTypes := Z.
Definition ROADTYPES_ROAD : RoadTypes := 1.

Definition RoadType_val (rt : RoadType) : Z :=
  match rt with
  | ROADTYPE_ROAD => 0
  | ROADTYPE_TRAM => 1
  end.

(** Modelled from the spec: [HasBit] of core/bitmath_func.hpp (not among the
    sources): bit [y] of [x] is set. *)
Definition HasBit (x : Z) (y : Z) : bool := Z.testbit x y.

(** ** Tiles (tile_type.h, slope_type.h, map accessors) *)

(** Modelled from the spec: the enum [TileType] of tile_type.h (not among
    the sources): the spec's tile categories (open ground, vegetation, road,
    railway, water, tunnel or bridge, station) and the other ones. *)
Inductive TileType : Type :=
| MP_CLEAR
| MP_RAILWAY
| MP_ROAD
| MP_HOUSE
| MP_TREES
| MP_STATION
| MP_WATER
| MP_VOID
| MP_INDUSTRY
| MP_TUNNELBRIDGE
| MP_OBJECT.

Definition TileType_eqb (a b : TileType) : bool :=
  match a, b with
  | MP_CLEAR, MP_CLEAR | MP_RAILWAY, MP_RAILWAY | MP_ROAD, MP_ROAD
  | MP_HOUSE, MP_HOUSE | MP_TREES, MP_TREES | MP_STATION, MP_STATION
  | MP_WATER, MP_WATER | MP_VOID, MP_VOID | MP_INDUSTRY, MP_INDUSTRY
  | MP_TUNNELBRIDGE, MP_TUNNELBRIDGE | MP_OBJECT, MP_OBJECT => true
  | _, _ => false
  end.

(** Modelled from the spec: the enums [RoadTileType], [RailTileType] and
    [WaterTileType] of road_map.h, rail_map.h and water_map.h (not among the
    sources): the kinds of road, rail and water tiles that the spec tells
    apart (standard road tile, plain rail tile, open water or shore). *)
Inductive RoadTileType : Type :=
| ROAD_TILE_NORMAL
| ROAD_TILE_CROSSING
| ROAD_TILE_DEPOT.

Inductive RailTileType : Type :=
| RAIL_TILE_NORMAL
| RAIL_TILE_SIGNALS
| RAIL_TILE_DEPOT.

Inductive WaterTileType : Type :=
| WATER_TILE_CLEAR
| WATER_TILE_COAST
| WATER_TILE_LOCK
| WATER_TILE_DEPOT.

(** Modelled from the spec: the enum [Slope] of slope_type.h (not among the
    sources): the raised corners of a tile as a bitmask; flat is none. *)
Definition Slope := Z.
Definition SLOPE_FLAT : Slope := 0.
Definition SLOPE_W : Slope := 1.
Definition SLOPE_S : Slope := 2.
Definition SLOPE_E : Slope := 4.
Definition SLOPE_N : Slope := 8.
Definition SLOPE_NW : Slope := Z.lor SLOPE_N SLOPE_W.
Definition SLOPE_SW : Slope := Z.lor SLOPE_S SLOPE_W.
Definition SLOPE_SE : Slope := Z.lor SLOPE_S SLOPE_E.
Definition SLOPE_NE : Slope := Z.lor SLOPE_N SLOPE_E.

(** Modelled from the spec: [IsInclinedSlope] of slope_func.h (not among the
    sources): the spec's single uniform incline, one of the four slopes with
    exactly two adjacent corners raised. *)
Definition IsInclinedSlope (s : Slope) : bool :=
  (s =? SLOPE_NW) || (s =? SLOPE_SW) || (s =? SLOPE_SE) || (s =? SLOPE_NE).

(** Modelled from the spec: the enum [TrackBits] of track_type.h (not among
    the sources): the straight track along the X axis and along the Y
    axis. *)
Definition TrackBits := Z.
Definition TRACK_BIT_X : TrackBits := 1.
Definition TRACK_BIT_Y : TrackBits := 2.

(** Modelled from the spec: the enum [Owner] of company_type.h (not among
    the sources): the town as owner, and no owner. *)
Definition Owner := Z.
Definition OWNER_TOWN : Owner := 15.
Definition OWNER_NONE : Owner := 16.

Definition TownID := Z.
Definition TileIndex := Z.

(** Modelled from the spec: the Terrain Oracle.  The map array and its
    accessors (map.cpp, tile_map.h, road_map.h, rail_map.h, water_map.h,
    landscape.h) are not among the sources; a tile is the record of what
    those accessors answer for it.  The other road works are the level
    crossings, road depots, road stops and the heads of road bridges and
    tunnels. *)
Record Tile : Type := mkTile {
  tile_type : TileType;              (* GetTileType *)
  tile_slope : Slope;                (* GetTileSlope, the slope *)
  tile_height : Z;                   (* GetTileSlope, the height *)
  foundation_slope : Slope;          (* GetFoundationSlope *)
  road_tile_type : RoadTileType;     (* GetRoadTileType, on MP_ROAD *)
  road_bits : RoadBits;              (* road pieces of a normal road tile *)
  tram_bits : RoadBits;              (* tram pieces of a normal road tile *)
  other_road_bits : RoadBits;        (* road pieces of other road works *)
  other_tram_bits : RoadBits;        (* tram pieces of other road works *)
  rail_tile_type : RailTileType;     (* GetRailTileType, on MP_RAILWAY *)
  track_bits : TrackBits;            (* GetTrackBits, on plain rail *)
  water_tile_type : WaterTileType;   (* GetWaterTileType, on MP_WATER *)
  tile_town : TownID;                (* the town of a road tile *)
  tile_owner : Owner;                (* GetTileOwner: owner of the road *)
  tram_owner : Owner                 (* GetRoadOwner(t, ROADTYPE_TRAM) *)
}.

(** The map: [_map_log_x], [_map_log_y] and the tile array [_m]. *)
Record Map : Type := mkMap {
  map_log_x : nat;
  map_log_y : nat;
  map_tiles : TileIndex -> Tile
}.

(** Modelled from the spec: [MapLogX], [MapSizeX], [MapSizeY], [MapSize],
    [MapMaxX], [TileX] and [TileY] of map_func.h (not among the sources):
    the size of the map and the spec's decomposition of a tile coordinate
    into (x, y). *)
Definition MapLogX (m : Map) : Z := Z.of_nat (map_log_x m).
Definition MapSizeX (m : Map) : Z := Z.shiftl 1 (Z.of_nat (map_log_x m)).
Definition MapSizeY (m : Map) : Z := Z.shiftl 1 (Z.of_nat (map_log_y m)).
Definition MapSize (m : Map) : Z := MapSizeX m * MapSizeY m.
Definition MapMaxX (m : Map) : Z := MapSizeX m - 1.

Definition TileX (m : Map) (tile : TileIndex) : Z := Z.land tile (MapMaxX m).
Definition TileY (m : Map) (tile : TileIndex) : Z := Z.shiftr tile (MapLogX m).

(** Modelled from the spec: [Delta] of core/math_func.hpp (not among the
    sources): the absolute difference. *)
Definition Delta (a b : Z) : Z := if a <? b then b - a else a - b.

(** Modelled from the spec: [DistanceManhattan] of map.cpp (not among the
    sources): the Manhattan distance of two tile coordinates.  For tile
    indices of 32 bits the sum stays below [2 ^ 32]
    (lemma [DistanceManhattan_uint]). *)
Definition DistanceManhattan (m : Map) (t0 t1 : TileIndex) : Z :=
  Delta (TileX m t0) (TileX m t1) + Delta (TileY m t0) (TileY m t1).

(** Modelled from the spec: [_tileoffs_by_diagdir] and [TileOffsByDiagDir]
    of map.cpp and map_func.h (not among the sources): the offset of one
    step in a direction, [(dy << MapLogX()) + dx]. *)
Definition tileoffs_by_diagdir (d : DiagDirection) : Z * Z :=
  match d with
  | DIAGDIR_NE => (-1, 0)
  | DIAGDIR_SE => (0, 1)
  | DIAGDIR_SW => (1, 0)
  | DIAGDIR_NW => (0, -1)
  end.

Definition TileOffsByDiagDir (m : Map) (d : DiagDirection) : Z :=
  let '(dx, dy) := tileoffs_by_diagdir d in dy * MapSizeX m + dx.

(** [tile + diff] on [TileIndex], a 32-bit unsigned integer. *)
Definition TILE_ADD (tile : TileIndex) (diff : Z) : TileIndex :=
  uint32 (tile + diff).

(** Modelled from the spec: [TileAddByDiagDir] of map_func.h (not among the
    sources): the offset tile of one step in a direction. *)
Definition TileAddByDiagDir (m : Map) (tile : TileIndex) (d : DiagDirection)
  : TileIndex :=
  TILE_ADD tile (TileOffsByDiagDir m d).

(** Modelled from the spec: [DiagdirBetweenTiles] of map_func.h (not among
    the sources): the direction from a tile to another on the same row or
    column, [None] for [INVALID_DIAGDIR]. *)
Definition DiagdirBetweenTiles (m : Map) (tile_from tile_to : TileIndex)
  : option DiagDirection :=
  let dx := TileX m tile_to - TileX m tile_from in
  let dy := TileY m tile_to - TileY m tile_from in
  if dx =? 0 then
    if dy =? 0 then None
    else Some (if dy <? 0 then DIAGDIR_NW else DIAGDIR_SE)
  else
    if negb (dy =? 0) then None
    else Some (if dx <? 0 then DIAGDIR_NE else DIAGDIR_SW).

(** Modelled from the spec: [GetTileType] and [IsTileType] of tile_map.h
    (not among the sources), the spec's [tileType(coord)]. *)
Definition GetTileType (m : Map) (tile : TileIndex) : TileType :=
  tile_type (map_tiles m tile).

Definition IsTileType (m : Map) (tile : TileIndex) (type : TileType) : bool :=
  TileType_eqb (GetTileType m tile) type.

(** Modelled from the spec: [IsValidTile] of tile_map.h (not among the
    sources): a tile index on the map whose tile is not void. *)
Definition IsValidTile (m : Map) (tile : TileIndex) : bool :=
  (tile <? MapSize m) && negb (IsTileType m tile MP_VOID).

(** Modelled from the spec: [GetRoadTileType], [IsNormalRoad] and
    [IsNormalRoadTile] of road_map.h (not among the sources): the spec's
    standard road tile. *)
Definition GetRoadTileType (m : Map) (t : TileIndex) : RoadTileType :=
  road_tile_type (map_tiles m t).

Definition IsNormalRoad (m : Map) (t : TileIndex) : bool :=
  match GetRoadTileType m t with
  | ROAD_TILE_NORMAL => true
  | _ => false
  end.

Definition IsNormalRoadTile (m : Map) (t : TileIndex) : bool :=
  IsTileType m t MP_ROAD && IsNormalRoad m t.

(** Modelled from the spec: [GetRoadBits] of road_map.h (not among the
    sources): the road-bit set of a normal road tile for one road type;
    the accessor asserts that the tile is a normal road tile. *)
Definition GetRoadBits (m : Map) (t : TileIndex) (rt : RoadType)
  : option RoadBits :=
  _ <- assert (IsNormalRoadTile m t) ;;
  Some (match rt with
        | ROADTYPE_ROAD => road_bits (map_tiles m t)
        | ROADTYPE_TRAM => tram_bits (map_tiles m t)
        end).

(** Modelled from the spec: [GetAnyRoadBits] of road_map.cpp (not among the
    sources), the spec's [existingRoadBits(coord, roadKind)]: the pieces of
    a normal road tile, the pieces recorded for other road infrastructure,
    nothing on a tile of another type. *)
Definition GetAnyRoadBits (m : Map) (tile : TileIndex) (rt : RoadType)
  : RoadBits :=
  let t := map_tiles m tile in
  let other := match rt with
               | ROADTYPE_ROAD => other_road_bits t
               | ROADTYPE_TRAM => other_tram_bits t
               end in
  match tile_type t with
  | MP_ROAD =>
      match road_tile_type t with
      | ROAD_TILE_NORMAL =>
          match rt with
          | ROADTYPE_ROAD => road_bits t
          | ROADTYPE_TRAM => tram_bits t
          end
      | _ => other
      end
  | MP_STATION | MP_TUNNELBRIDGE => other
  | _ => ROAD_NONE
  end.

(** Modelled from the spec: [GetRailTileType] and [GetTrackBits] of
    rail_map.h and [GetFoundationSlope] of landscape.h (not among the
    sources): what the spec's [isPlainRailWithPerpendicularTrack] reads. *)
Definition GetRailTileType (m : Map) (t : TileIndex) : RailTileType :=
  rail_tile_type (map_tiles m t).

Definition GetTrackBits (m : Map) (t : TileIndex) : TrackBits :=
  track_bits (map_tiles m t).

Definition GetFoundationSlope (m : Map) (t : TileIndex) : Slope :=
  foundation_slope (map_tiles m t).

(** Modelled from the spec: [IsWater] of water_map.h (not among the
    sources): real water, as opposed to coast, lock or depot. *)
Definition IsWater (m : Map) (t : TileIndex) : bool :=
  match water_tile_type (map_tiles m t) with
  | WATER_TILE_CLEAR => true
  | _ => false
  end.

(** Modelled from the spec: [GetTileSlope] of tile_map.h (not among the
    sources), the spec's [slopeAndHeight(coord)]. *)
Definition GetTileSlope (m : Map) (t : TileIndex) : Slope * Z :=
  (tile_slope (map_tiles m t), tile_height (map_tiles m t)).

(** ** [IsPossibleCrossing] (road.cpp, lines 36-42) *)

Definition IsPossibleCrossing (m : Map) (tile : TileIndex) (ax : Axis) : bool :=
  IsTileType m tile MP_RAILWAY &&
  match GetRailTileType m tile with RAIL_TILE_NORMAL => true | _ => false end &&
  (GetTrackBits m tile =? match ax with
                          | AXIS_X => TRACK_BIT_Y
                          | AXIS_Y => TRACK_BIT_X
                          end) &&
  (GetFoundationSlope m tile =? SLOPE_FLAT).

(** ** [CleanUpRoadBits] (road.cpp, lines 50-106) *)

(** The value of the local [connective] when line 101 is reached for the
    direction [dir]. *)
Definition connective (m : Map) (tile : TileIndex) (dir : DiagDirection)
  : bool :=
  let neighbor_tile := TileAddByDiagDir m tile dir in
  let target_rb := DiagDirToRoadBits dir in
  let mirrored_rb := MirrorRoadBits target_rb in
  if IsValidTile m neighbor_tile then
    match GetTileType m neighbor_tile with
    | MP_CLEAR | MP_TREES => true
    | MP_TUNNELBRIDGE | MP_STATION | MP_ROAD =>
        if IsNormalRoadTile m neighbor_tile then true
        else
          let neighbor_rb :=
            Z.lor (GetAnyRoadBits m neighbor_tile ROADTYPE_ROAD)
                  (GetAnyRoadBits m neighbor_tile ROADTYPE_TRAM) in
          negb (Z.land neighbor_rb mirrored_rb =? ROAD_NONE)
    | MP_RAILWAY => IsPossibleCrossing m neighbor_tile (DiagDirToAxis dir)
    | MP_WATER => negb (IsWater m neighbor_tile)
    | _ => false
    end
  else false.

(** One turn of the loop over the directions. *)
Definition CleanUpRoadBits_step (m : Map) (tile : TileIndex)
  (org_rb : RoadBits) (dir : DiagDirection) : RoadBits :=
  let target_rb := DiagDirToRoadBits dir in
  if negb (Z.land org_rb target_rb =? 0) then
    if negb (connective m tile dir) then Z.lxor org_rb target_rb else org_rb
  else org_rb.

Definition CleanUpRoadBits (m : Map) (tile : TileIndex) (org_rb : RoadBits)
  : RoadBits :=
  if negb (IsValidTile m tile) then ROAD_NONE
  else fold_left (CleanUpRoadBits_step m tile) all_diagdirs org_rb.

(** ** Writing road tiles (road_map.h) *)

(** The assignment [_m[t] = v]. *)
Definition set_tile (m : Map) (t : TileIndex) (v : Tile) : Map :=
  mkMap (map_log_x m) (map_log_y m)
        (fun i => if i =? t then v else map_tiles m i).

(** Modelled from the spec: [SetRoadBits] of road_map.h (not among the
    sources), the spec's [setRoadBits]: replaces the road-bit set of one
    road type on a normal road tile; the accessor asserts that the tile is
    a normal road tile. *)
Definition SetRoadBits (m : Map) (t : TileIndex) (r : RoadBits) (rt : RoadType)
  : option Map :=
  _ <- assert (IsNormalRoadTile m t) ;;
  let o := map_tiles m t in
  Some (set_tile m t
    (mkTile (tile_type o) (tile_slope o) (tile_height o) (foundation_slope o)
            (road_tile_type o)
            (match rt with ROADTYPE_ROAD => r | ROADTYPE_TRAM => road_bits o end)
            (match rt with ROADTYPE_ROAD => tram_bits o | ROADTYPE_TRAM => r end)
            (other_road_bits o) (other_tram_bits o)
            (rail_tile_type o) (track_bits o) (water_tile_type o)
            (tile_town o) (tile_owner o) (tram_owner o))).

(** Modelled from the spec: [MakeRoadNormal] of road_map.h (not among the
    sources): turns a tile into a plain road tile with the given pieces for
    the road types of [rot], the given town, road owner and tram owner. *)
Definition MakeRoadNormal (m : Map) (t : TileIndex) (bits : RoadBits)
  (rot : RoadTypes) (town : TownID) (road tram : Owner) : Map :=
  let o := map_tiles m t in
  set_tile m t
    (mkTile MP_ROAD (tile_slope o) (tile_height o) (foundation_slope o)
            ROAD_TILE_NORMAL
            (if HasBit rot (RoadType_val ROADTYPE_ROAD) then bits else 0)
            (if HasBit rot (RoadType_val ROADTYPE_TRAM) then bits else 0)
            (other_road_bits o) (other_tram_bits o)
            (rail_tile_type o) (track_bits o) (water_tile_type o)
            town road tram).

(** ** Towns (town.h, town_cmd.cpp) *)

(** Modelled from the spec: the struct [Town] of town.h (not among the
    sources): the spec's Settlement, with identifier, location and
    population. *)
Record Town : Type := mkTown {
  index : TownID;
  xy : TileIndex;
  population : Z        (* cache.population *)
}.

Definition UINT_MAX : Z := 2 ^ 32 - 1.

(** Modelled from the spec: [CalcClosestTownFromTile] of town_cmd.cpp (not
    among the sources), the spec's [nearestSettlementTo]: the first town of
    the pool at the least Manhattan distance, a null pointer without one. *)
Definition CalcClosestTownFromTile (m : Map) (pool : list Town)
  (tile : TileIndex) : option Town :=
  snd (fold_left
         (fun (acc : Z * option Town) (t : Town) =>
            let dist := DistanceManhattan m tile (xy t) in
            if dist <? fst acc then (dist, Some t) else acc)
         pool (UINT_MAX, None)).

(** ** The callbacks of the search (road.cpp, lines 160-264) *)

(** Modelled from the spec: [AyStarNode] and [PathNode] of
    pathfinder/npf/aystar.h and [INVALID_TRACKDIR] of track_type.h (not
    among the sources): the spec's Search Node, with its tile, its incoming
    direction and the link to its parent. *)
Definition Trackdir := Z.
Definition INVALID_TRACKDIR : Trackdir := 255.

Record AyStarNode : Type := mkAyStarNode {
  tile : TileIndex;
  direction : Trackdir
}.

(** A [PathNode] chain, from a node along its [parent] links to the start
    node, is the list of its nodes. *)
Definition PathNode := list AyStarNode.

Definition PublicRoad_CalculateG (current parent : AyStarNode) : Z := 1.

Definition PublicRoad_CalculateH (m : Map) (user_target : TileIndex)
  (current : AyStarNode) : Z :=
  int32 (DistanceManhattan m user_target (tile current)).

Definition CanBuildRoadFromTo (m : Map) (begin end_ : TileIndex)
  : option bool :=
  _ <- assert (DistanceManhattan m begin end_ =? 1) ;;
  let '(slopeBegin, heightBegin) := GetTileSlope m begin in
  let '(slopeEnd, heightEnd) := GetTileSlope m end_ in
  Some (((slopeEnd =? SLOPE_FLAT) || IsInclinedSlope slopeEnd) &&
        (((slopeEnd =? slopeBegin) && negb (heightEnd =? heightBegin)) ||
         (slopeEnd =? SLOPE_FLAT) || (slopeBegin =? SLOPE_FLAT))).

(** A loop whose body may fail. *)
Fixpoint for_each {A S : Type} (f : S -> A -> option S) (l : list A) (s : S)
  : option S :=
  match l with
  | [] => Some s
  | a :: l' => s' <- f s a ;; for_each f l' s'
  end.

(** One turn of the loop of [PublicRoad_GetNeighbours]; the accumulator is
    [aystar->neighbours[0 .. num_neighbours - 1]]. *)
Definition PublicRoad_GetNeighbours_step (m : Map) (tile0 : TileIndex)
  (neighbours : list AyStarNode) (d : DiagDirection)
  : option (list AyStarNode) :=
  let t2 := TILE_ADD tile0 (TileOffsByDiagDir m d) in
  if IsValidTile m t2 then
    ok <- CanBuildRoadFromTo m tile0 t2 ;;
    if ok && (IsTileType m t2 MP_CLEAR || IsTileType m t2 MP_TREES ||
              IsTileType m t2 MP_ROAD)
    then Some (neighbours ++ [mkAyStarNode t2 INVALID_TRACKDIR])
    else Some neighbours
  else Some neighbours.

Definition PublicRoad_GetNeighbours (m : Map) (current : AyStarNode)
  : option (list AyStarNode) :=
  for_each (PublicRoad_GetNeighbours_step m (tile current)) all_diagdirs [].

Definition PublicRoad_EndNodeCheck (user_target : TileIndex)
  (current : AyStarNode) : bool :=
  tile current =? user_target.

(** The road bit from [tile0] towards the tile of a neighbouring node of the
    path, nothing when there is no such node. *)
Definition bits_towards (m : Map) (tile0 : TileIndex) (n : option AyStarNode)
  : option RoadBits :=
  match n with
  | None => Some ROAD_NONE
  | Some n' =>
      d <- DiagdirBetweenTiles m tile0 (tile n') ;;
      Some (DiagDirToRoadBits d)
  end.

(** One turn of the second loop of [PublicRoad_FoundEndNode], for the node
    [node] of the chain: [child] is the node visited before, [parent] the
    rest of the chain ([path->parent] and what follows it). *)
Definition PublicRoad_FoundEndNode_step (pool : list Town) (m : Map)
  (child : option AyStarNode) (node : AyStarNode) (parent : PathNode)
  : option Map :=
  let tile0 := tile node in
  town <- CalcClosestTownFromTile m pool tile0 ;;
  let townID := index town in
  b1 <- bits_towards m tile0 child ;;
  b2 <- bits_towards m tile0 (hd_error parent) ;;
  let roadBits := Z.lor (Z.lor ROAD_NONE b1) b2 in
  match child, parent with
  | None, [] => Some m
  | _, _ =>
      _ <- assert (tile0 <? MapSize m) ;;
      if TileType_eqb (GetTileType m tile0) MP_ROAD then
        old <- GetRoadBits m tile0 ROADTYPE_ROAD ;;
        SetRoadBits m tile0 (Z.lor old roadBits) ROADTYPE_ROAD
      else
        Some (MakeRoadNormal m tile0 roadBits ROADTYPES_ROAD townID
                             OWNER_TOWN OWNER_NONE)
  end.

(** The second loop of [PublicRoad_FoundEndNode].  (The first loop counts
    the nodes into [length], which is not read afterwards.) *)
Fixpoint PublicRoad_FoundEndNode_loop (pool : list Town) (m : Map)
  (child : option AyStarNode) (path : PathNode) : option Map :=
  match path with
  | [] => Some m
  | node :: parent =>
      m' <- PublicRoad_FoundEndNode_step pool m child node parent ;;
      PublicRoad_FoundEndNode_loop pool m' (Some node) parent
  end.

Definition PublicRoad_FoundEndNode (pool : list Town) (m : Map)
  (current : PathNode) : option Map :=
  PublicRoad_FoundEndNode_loop pool m None current.

(** ** [GeneratePublicRoads] (road.cpp, lines 269-319) *)

(** Modelled from the spec: the Search Engine (pathfinder/npf/aystar.cpp is
    not among the sources).  A run from a start tile towards [user_target]
    on a map ends either at the end node, and then its value is the parent
    chain of that node, or without one. *)
Definition Search := Map -> TileIndex -> TileIndex -> option PathNode.

(** Modelled from the spec: the engine object [finder] (pathfinder/npf/aystar.h
    is not among the sources), as far as [GeneratePublicRoads] handles it
    outside a search: [MemSetT(&finder, 0)] leaves it zeroed, without an
    open or a closed set, and [finder.Init] allocates the two sets. *)
Inductive AyStar : Type :=
| Zeroed
| Initialized.

Definition MemSetT_finder : AyStar := Zeroed.

Definition finder_Init (finder : AyStar) : AyStar := Initialized.

Inductive Outcome : Type :=
| Returned (m : Map)       (* the function returns, leaving this map *)
| AssertionFailed          (* a callback stopped where it returns [None] *)
| EmptyVectorAccess        (* [*towns.begin()] on an empty vector *)
| FreeOfZeroedEngine       (* [finder.Free()] on an engine never set up *)
| OutOfFuel.               (* more rounds than the fuel allows *)

(** Modelled from the spec: [finder.Free()] (pathfinder/npf/aystar.cpp is not
    among the sources) releases the open and the closed set of the engine.
    An engine that is still zeroed has none: the call goes through the null
    block table of the open list and the function does not return. *)
Definition finder_Free (finder : AyStar) (m : Map) : Outcome :=
  match finder with
  | Initialized => Returned m
  | Zeroed => FreeOfZeroedEngine
  end.

Section Generator.

(** [std::sort] with a comparison, the search engine, and the town pool
    that [FOR_ALL_TOWNS] goes through. *)
Variable sort : (Town -> Town -> bool) -> list Town -> list Town.
Variable search : Search.
Variable pool : list Town.

(** [finder.Main() == AYSTAR_FOUND_END_NODE], with the call of the
    [FoundEndNode] callback that the engine makes when it finds the end
    node. *)
Definition finder_Main (m : Map) (start user_target : TileIndex)
  : option (bool * Map) :=
  match search m start user_target with
  | Some path =>
      m' <- PublicRoad_FoundEndNode pool m path ;;
      Some (true, m')
  | None => Some (false, m)
  end.

(** The body of the [for_each] over the sorted towns; the state is the
    engine, the map and [unconnected_towns]. *)
Definition connect (begin : Town) (st : AyStar * Map * list Town) (end_ : Town)
  : option (AyStar * Map * list Town) :=
  let '(finder, m, unconnected_towns) := st in
  let finder := finder_Init finder in
  r <- finder_Main m (xy begin) (xy end_) ;;
  let '(found, m') := r in
  Some (finder, m',
        if found then unconnected_towns else unconnected_towns ++ [end_]).

(** The [do ... while] loop, and the [finder.Free()] that follows it when
    the loop is left; every turn uses one unit of fuel. *)
Fixpoint GeneratePublicRoads_loop (fuel : nat) (finder : AyStar) (m : Map)
  (unconnected_towns : list Town) : Outcome :=
  match fuel with
  | O => OutOfFuel
  | S fuel' =>
      let towns := unconnected_towns in
      let towns := sort (fun a b => population a <? population b) towns in
      match towns with
      | [] => EmptyVectorAccess
      | begin :: towns =>
          let towns :=
            sort (fun a b => DistanceManhattan m (xy begin) (xy a) <?
                             DistanceManhattan m (xy begin) (xy b)) towns in
          match for_each (connect begin) towns (finder, m, []) with
          | None => AssertionFailed
          | Some (finder', m', []) => finder_Free finder' m'
          | Some (finder', m', unconnected_towns') =>
              GeneratePublicRoads_loop fuel' finder' m' unconnected_towns'
          end
      end
  end.

Definition GeneratePublicRoads (fuel : nat) (m : Map) : Outcome :=
  let finder := MemSetT_finder in
  GeneratePublicRoads_loop fuel finder m pool.

End Generator.

(** ** Road types of companies (road.cpp, lines 108-158) *)

Definition ROADTYPES_NONE : RoadTypes := 0.
Definition ROADTYPES_TRAM : RoadTypes := 2.
Definition ROADTYPES_ALL : RoadTypes := 3.

(** Modelled from the spec: [RoadTypeToRoadTypes] of road_func.h (not among
    the sources): the set with one road sub-type, [1 << rt]. *)
Definition RoadTypeToRoadTypes (rt : RoadType) : RoadTypes :=
  Z.shiftl 1 (RoadType_val rt).

(** Modelled from the spec: [SetBit] of core/bitmath_func.hpp (not among the
    sources): [x | (1 << y)]. *)
Definition SetBit (x y : Z) : Z := Z.lor x (Z.shiftl 1 y).

Definition CompanyID := Z.
Definition OWNER_DEITY : Owner := 18.

Inductive GameMode : Type := GM_MENU | GM_NORMAL | GM_EDITOR | GM_BOOTSTRAP.

Inductive VehicleType : Type := VEH_TRAIN | VEH_ROAD | VEH_SHIP | VEH_AIRCRAFT.

(** Modelled from the spec: the fields of [Company] (company_base.h) and of
    [Engine] with its [EngineInfo] (engine_base.h, engine_type.h) that
    road.cpp reads; neither header is among the sources. *)
Record Company : Type := mkCompany {
  avail_roadtypes : Z                 (* byte avail_roadtypes *)
}.

Record Engine : Type := mkEngine {
  engine_type : VehicleType;          (* e->type *)
  climates : Z;                       (* e->info.climates *)
  company_avail : Z;                  (* e->company_avail *)
  intro_date : Z;                     (* e->intro_date *)
  misc_flags : Z                      (* e->info.misc_flags *)
}.

Definition EF_ROAD_TRAM : Z := 0.
Definition DAYS_IN_YEAR : Z := 365.

(** The globals that the three functions read: [_game_mode],
    [_generating_world], [_current_company], the company pool behind
    [Company::GetIfValid], the engine pool behind [FOR_ALL_ENGINES_OF_TYPE],
    [_settings_game.game_creation.landscape] and [_date]. *)
Record Game : Type := mkGame {
  game_mode : GameMode;
  generating_world : bool;
  current_company : CompanyID;
  company_pool : CompanyID -> option Company;
  engine_pool : list Engine;
  landscape : Z;
  date : Z
}.

Definition HasRoadTypesAvail (g : Game) (company : CompanyID) (rts : RoadTypes)
  : bool :=
  if (company =? OWNER_DEITY) || (company =? OWNER_TOWN) ||
     match game_mode g with GM_EDITOR => true | _ => false end ||
     generating_world g
  then
    let avail := ROADTYPES_ROAD in
    Z.land rts (Z.lnot avail) =? 0
  else
    match company_pool g company with
    | None => false
    | Some c =>
        let avail := Z.lor (avail_roadtypes c) ROADTYPES_ROAD in
        Z.land rts (Z.lnot avail) =? 0
    end.

Definition ValParamRoadType (g : Game) (rt : RoadType) : bool :=
  HasRoadTypesAvail g (current_company g) (RoadTypeToRoadTypes rt).

(** One turn of [FOR_ALL_ENGINES_OF_TYPE(e, VEH_ROAD)] in
    [GetCompanyRoadtypes].  The sum [e->intro_date + DAYS_IN_YEAR] is a
    32-bit [int]: past the end of its range it wraps around. *)
Definition GetCompanyRoadtypes_step (g : Game) (company : CompanyID)
  (rt : RoadTypes) (e : Engine) : RoadTypes :=
  match engine_type e with
  | VEH_ROAD =>
      if HasBit (climates e) (landscape g) &&
         (HasBit (company_avail e) company ||
          (int32 (intro_date e + DAYS_IN_YEAR) <=? date g))
      then SetBit rt (RoadType_val (if HasBit (misc_flags e) EF_ROAD_TRAM
                                    then ROADTYPE_TRAM else ROADTYPE_ROAD))
      else rt
  | _ => rt
  end.

Definition GetCompanyRoadtypes (g : Game) (company : CompanyID) : RoadTypes :=
  fold_left (GetCompanyRoadtypes_step g company) (engine_pool g) ROADTYPES_NONE.

(** ** The hash of the search (road.cpp, lines 162-173) *)

Definition PUBLIC_ROAD_HASH_SIZE : Z := 8.

(** Modelled from the spec: [TileHash] of map_func.h (not among the
    sources): the spec's spatial hash of a coordinate, in 32-bit unsigned
    arithmetic. *)
Definition TileHash (x y : Z) : Z :=
  let hash := Z.shiftr x 4 in
  let hash := Z.lxor hash (Z.shiftr x 6) in
  let hash := Z.lxor hash (Z.shiftr y 4) in
  uint32 (hash - Z.shiftr y 6).

Definition PublicRoad_Hash (m : Map) (tile0 dir : Z) : Z :=
  GB (TileHash (TileX m tile0) (TileY m tile0)) 0 PUBLIC_ROAD_HASH_SIZE.

(* ===================================================================== *)
(** * Part II: the notions of the specification *)
(* ===================================================================== *)

(** The position of the road bit of a direction in a road-bit set. *)
Definition road_bit_index (d : DiagDirection) : Z :=
  Z.lxor 3 (DiagDirection_val d).

(** A road-bit set contains the bit of a direction. *)
Definition has_road_bit (rb : RoadBits) (d : DiagDirection) : bool :=
  Z.testbit rb (road_bit_index d).

(** The track of a plain straight rail tile that lies across a road leaving
    in direction [d]. *)
Definition perpendicular_track (d : DiagDirection) : TrackBits :=
  match d with
  | DIAGDIR_NE | DIAGDIR_SW => TRACK_BIT_Y
  | DIAGDIR_SE | DIAGDIR_NW => TRACK_BIT_X
  end.

(** The case analysis of the Connectivity Validator (section 4.2), for the
    neighbour [n] of a tile in direction [d]. *)
Definition Connective_spec (m : Map) (n : TileIndex) (d : DiagDirection)
  : Prop :=
  IsValidTile m n = true /\
  match GetTileType m n with
  | MP_CLEAR | MP_TREES => True
  | MP_TUNNELBRIDGE | MP_STATION | MP_ROAD =>
      IsNormalRoadTile m n = true \/
      has_road_bit (Z.lor (GetAnyRoadBits m n ROADTYPE_ROAD)
                          (GetAnyRoadBits m n ROADTYPE_TRAM))
                   (ReverseDiagDir d) = true
  | MP_RAILWAY =>
      GetRailTileType m n = RAIL_TILE_NORMAL /\
      GetTrackBits m n = perpendicular_track d /\
      GetFoundationSlope m n = SLOPE_FLAT
  | MP_WATER => IsWater m n = false
  | _ => False
  end.

(** The edge-buildability precheck in the words of section 4.1: the
    destination is flat or a single incline, and both ends have the same
    incline at different heights or one of the ends is flat. *)
Definition edge_admissible_spec (m : Map) (begin end_ : TileIndex) : Prop :=
  let '(slopeBegin, heightBegin) := GetTileSlope m begin in
  let '(slopeEnd, heightEnd) := GetTileSlope m end_ in
  (slopeEnd = SLOPE_FLAT \/ IsInclinedSlope slopeEnd = true) /\
  ((IsInclinedSlope slopeBegin = true /\ IsInclinedSlope slopeEnd = true /\
    slopeEnd = slopeBegin /\ heightEnd <> heightBegin) \/
   slopeEnd = SLOPE_FLAT \/ slopeBegin = SLOPE_FLAT).

(** The contract of [CanBuildRoadFromTo] at the calls that
    [PublicRoad_GetNeighbours] makes from [tile0]: every valid offset tile
    is at Manhattan distance 1. *)
Definition probes_adjacent (m : Map) (tile0 : TileIndex) : Prop :=
  forall d : DiagDirection,
    IsValidTile m (TILE_ADD tile0 (TileOffsByDiagDir m d)) = true ->
    DistanceManhattan m tile0 (TILE_ADD tile0 (TileOffsByDiagDir m d)) = 1.

(** The last column of the map is void, as on every generated map. *)
Definition void_border (m : Map) : Prop :=
  forall t : TileIndex,
    0 <= t < MapSize m -> TileX m t = MapMaxX m -> GetTileType m t = MP_VOID.

(** The neighbours of section 4.1: the offset tile of one of the four
    directions that is a valid map position, passes the edge precheck and
    is clear ground, trees or road. *)
Definition neighbour_spec (m : Map) (tile0 t2 : TileIndex) : Prop :=
  exists d : DiagDirection,
    t2 = TILE_ADD tile0 (TileOffsByDiagDir m d) /\
    IsValidTile m t2 = true /\
    CanBuildRoadFromTo m tile0 t2 = Some true /\
    (GetTileType m t2 = MP_CLEAR \/ GetTileType m t2 = MP_TREES \/
     GetTileType m t2 = MP_ROAD).

(** The search graph: an edge leads from a node to each of the neighbours
    that the expansion gives for it. *)
Definition expands_to (m : Map) (a b : AyStarNode) : Prop :=
  exists l, PublicRoad_GetNeighbours m a = Some l /\ In b l.

(** [buildable_path m a steps c]: the nodes [steps] lead from [a] to [c]
    along edges of the search graph. *)
Inductive buildable_path (m : Map)
  : AyStarNode -> list AyStarNode -> AyStarNode -> Prop :=
| buildable_here (a : AyStarNode) : buildable_path m a [] a
| buildable_step (a b c : AyStarNode) (steps : list AyStarNode) :
    expands_to m a b ->
    buildable_path m b steps c ->
    buildable_path m a (b :: steps) c.

(** The cost of a path is the sum of the costs of its steps. *)
Fixpoint path_cost (a : AyStarNode) (steps : list AyStarNode) : Z :=
  match steps with
  | [] => 0
  | b :: steps' => PublicRoad_CalculateG b a + path_cost b steps'
  end.

(** What one turn of the loop appends. *)
Definition selected (m : Map) (tile0 : TileIndex) (d : DiagDirection)
  : list AyStarNode :=
  let t2 := TILE_ADD tile0 (TileOffsByDiagDir m d) in
  if IsValidTile m t2 then
    match CanBuildRoadFromTo m tile0 t2 with
    | Some true =>
        if IsTileType m t2 MP_CLEAR || IsTileType m t2 MP_TREES ||
           IsTileType m t2 MP_ROAD
        then [mkAyStarNode t2 INVALID_TRACKDIR] else []
    | _ => []
    end
  else [].

(** The connect loop of section 4.3 in the words of the specification: the
    settlements are searched in the given order from [begin], each on the
    map that the searches before it left; a found path is materialized, a
    settlement without a path is requeued for the next round. *)
Inductive connect_trace (search : Search) (pool : list Town) (begin : Town)
  : Map -> list Town -> Map -> list Town -> Prop :=
| connect_done (m : Map) : connect_trace search pool begin m [] m []
| connect_found (m m1 m' : Map) (end_ : Town) (rest next : list Town)
    (path : PathNode) :
    search m (xy begin) (xy end_) = Some path ->
    PublicRoad_FoundEndNode pool m path = Some m1 ->
    connect_trace search pool begin m1 rest m' next ->
    connect_trace search pool begin m (end_ :: rest) m' next
| connect_requeue (m m' : Map) (end_ : Town) (rest next : list Town) :
    search m (xy begin) (xy end_) = None ->
    connect_trace search pool begin m rest m' next ->
    connect_trace search pool begin m (end_ :: rest) m' (end_ :: next).

(** The engine after the [for_each] over the towns [order]: every turn of
    it calls [finder.Init]. *)
Definition finder_after (finder : AyStar) (order : list Town) : AyStar :=
  fold_left (fun f _ => finder_Init f) order finder.

(** What [GeneratePublicRoads] relies on from [std::sort]: the result is a
    rearrangement of the input in which no element compares less than one
    before it. *)
Definition sort_contract
  (sort : (Town -> Town -> bool) -> list Town -> list Town) : Prop :=
  (forall lt l, Permutation l (sort lt l)) /\
  (forall (key : Town -> Z) l,
      StronglySorted (fun a b => key a <= key b)
                     (sort (fun a b => key a <? key b) l)).

(** A sort that meets the contract: sorting by insertion. *)
Fixpoint insert_sorted (lt : Town -> Town -> bool) (x : Town) (l : list Town)
  : list Town :=
  match l with
  | [] => [x]
  | y :: l' => if lt x y then x :: y :: l' else y :: insert_sorted lt x l'
  end.

Definition insertion_sort (lt : Town -> Town -> bool) (l : list Town)
  : list Town :=
  fold_right (insert_sorted lt) [] l.

(** A settlement to which no search ever finds a path, on any map and from
    any start. *)
Definition unreachable (search : Search) (u : Town) : Prop :=
  forall (m : Map) (start : TileIndex), search m start (xy u) = None.

(** The liveness caveat of section 4.3, as the specification states it: with
    an unreachable settlement in the registry the generation never
    returns. *)
Definition never_returns_spec : Prop :=
  forall sort search pool m,
    sort_contract sort ->
    (exists u, In u pool /\ unreachable search u) ->
    forall fuel m', GeneratePublicRoads sort search pool fuel m <> Returned m'.

(** ** Path materialization (section 4.4) *)

(** The road-bit set computed for every node of a chain: the bits towards
    the node before it and the node after it. *)
Definition towards (m : Map) (tile0 : TileIndex) (n : option AyStarNode)
  : RoadBits :=
  match bits_towards m tile0 n with
  | Some b => b
  | None => ROAD_NONE
  end.

Fixpoint planned_bits (m : Map) (child : option AyStarNode) (path : PathNode)
  : list (TileIndex * RoadBits) :=
  match path with
  | [] => []
  | node :: parent =>
      (tile node,
       Z.lor (Z.lor ROAD_NONE (towards m (tile node) child))
             (towards m (tile node) (hd_error parent)))
      :: planned_bits m (Some node) parent
  end.

(** Consecutive nodes of a chain lie on adjacent tiles, as the nodes of a
    chain built from [PublicRoad_GetNeighbours] do. *)
Fixpoint chain_adjacent (m : Map) (child : option AyStarNode) (path : PathNode)
  : Prop :=
  match path with
  | [] => True
  | node :: parent =>
      match child with
      | Some c => DistanceManhattan m (tile node) (tile c) = 1
      | None => True
      end /\ chain_adjacent m (Some node) parent
  end.

(** Every node of the chain was given by the expansion of its parent. *)
Fixpoint expansion_chain (m : Map) (path : PathNode) : Prop :=
  match path with
  | node :: (parent :: _) as rest =>
      expands_to m parent node /\ expansion_chain m rest
  | _ => True
  end.

(** A tile is a normal road tile. *)
Definition is_normal_road (x : Tile) : Prop :=
  tile_type x = MP_ROAD /\ road_tile_type x = ROAD_TILE_NORMAL.

(** A chain that [PublicRoad_FoundEndNode] can materialize on a map without
    breaking the contract of an accessor: a closest town exists, the tiles
    are on the map, consecutive tiles are adjacent, the road tiles of the
    chain are normal road tiles (the contract of [GetRoadBits]), and no tile
    occurs twice (the search closes every tile once). *)
Definition materializable (m : Map) (pool : list Town) (path : PathNode)
  : Prop :=
  Forall (fun n => CalcClosestTownFromTile m pool (tile n) <> None) path /\
  Forall (fun n => tile n < MapSize m) path /\
  chain_adjacent m None path /\
  Forall (fun n => GetTileType m (tile n) = MP_ROAD ->
                   IsNormalRoad m (tile n) = true) path /\
  NoDup (map tile path).

(** What section 4.4 says of a tile [x] written for the computed bits [rb]
    on a tile that was [o]: on a road tile the bits are ORed into the
    existing set and nothing else changes; any other tile becomes a plain
    road tile with exactly those bits, of the nearest town [town], owned by
    the town, without a tram owner. *)
Definition materialized_spec (o : Tile) (rb : RoadBits) (town : option Town)
  (x : Tile) : Prop :=
  tile_type x = MP_ROAD /\
  road_tile_type x = ROAD_TILE_NORMAL /\
  if TileType_eqb (tile_type o) MP_ROAD then
    road_bits x = Z.lor (road_bits o) rb /\
    tram_bits x = tram_bits o /\
    tile_town x = tile_town o /\
    tile_owner x = tile_owner o /\
    tram_owner x = tram_owner o
  else
    road_bits x = rb /\
    tram_bits x = ROAD_NONE /\
    Some (tile_town x) = option_map index town /\
    tile_owner x = OWNER_TOWN /\
    tram_owner x = OWNER_NONE.

(** The tile record that the loop body writes. *)
Definition written_tile (o : Tile) (rb : RoadBits) (town : TownID) : Tile :=
  if TileType_eqb (tile_type o) MP_ROAD then
    mkTile (tile_type o) (tile_slope o) (tile_height o) (foundation_slope o)
           (road_tile_type o) (Z.lor (road_bits o) rb) (tram_bits o)
           (other_road_bits o) (other_tram_bits o)
           (rail_tile_type o) (track_bits o) (water_tile_type o)
           (tile_town o) (tile_owner o) (tram_owner o)
  else
    mkTile MP_ROAD (tile_slope o) (tile_height o) (foundation_slope o)
           ROAD_TILE_NORMAL rb 0
           (other_road_bits o) (other_tram_bits o)
           (rail_tile_type o) (track_bits o) (water_tile_type o)
           town OWNER_TOWN OWNER_NONE.

(** Two maps of the same size. *)
Definition same_size (m m' : Map) : Prop :=
  map_log_x m' = map_log_x m /\ map_log_y m' = map_log_y m.

(** Two maps with the same size and the same tiles. *)
Definition map_eq (m m' : Map) : Prop :=
  same_size m m' /\ forall t, map_tiles m' t = map_tiles m t.

(** A normal road tile stays one and keeps its road bits. *)
Definition tile_le (o x : Tile) : Prop :=
  is_normal_road o ->
  is_normal_road x /\ Z.lor (road_bits o) (road_bits x) = road_bits x.

(** The invariant of sections 3 and 8: no road bit of a normal road tile
    points at a neighbour that is not connective. *)
Definition no_dangling_stub (m : Map) : Prop :=
  forall (t : TileIndex) (rb : RoadBits) (d : DiagDirection),
    GetRoadBits m t ROADTYPE_ROAD = Some rb ->
    has_road_bit rb d = true ->
    connective m t d = true.

(** The same invariant as the specification states it for materialization:
    after a run on a chain found by the search, every bit of the road-bit
    set of every tile of the chain points at a connective neighbour. *)
Definition committed_connective_spec : Prop :=
  forall (pool : list Town) (m m1 : Map) (path : PathNode),
    materializable m pool path ->
    expansion_chain m path ->
    PublicRoad_FoundEndNode pool m path = Some m1 ->
    forall (n : AyStarNode) (rb : RoadBits) (d : DiagDirection),
      In n path ->
      GetRoadBits m1 (tile n) ROADTYPE_ROAD = Some rb ->
      has_road_bit rb d = true ->
      connective m1 (tile n) d = true.

(** Every node of the chain, between its neighbours, already has its
    computed bits on a normal road tile of the map. *)
Fixpoint saturated (pool : list Town) (m : Map) (child : option AyStarNode)
  (path : PathNode) : Prop :=
  match path with
  | [] => True
  | node :: parent =>
      (exists town b1 b2,
          CalcClosestTownFromTile m pool (tile node) = Some town /\
          bits_towards m (tile node) child = Some b1 /\
          bits_towards m (tile node) (hd_error parent) = Some b2 /\
          ((child = None /\ parent = []) \/
           (tile node < MapSize m /\
            is_normal_road (map_tiles m (tile node)) /\
            Z.lor (Z.lor (Z.lor ROAD_NONE b1) b2)
                  (road_bits (map_tiles m (tile node)))
            = road_bits (map_tiles m (tile node))))) /\
      saturated pool m (Some node) parent
  end.

(** ** A small map

    A map of 4 by 4 tiles, flat, with the void border of the last column
    and the last row; tile 4 is a house, tile 5 a road tile whose only piece
    leads north-east, towards the house; three towns. *)
Definition example_tile (type : TileType) (bits : RoadBits) : Tile :=
  mkTile type SLOPE_FLAT 0 SLOPE_FLAT ROAD_TILE_NORMAL bits ROAD_NONE
         ROAD_NONE ROAD_NONE RAIL_TILE_NORMAL 0 WATER_TILE_CLEAR
         0 OWNER_NONE OWNER_NONE.

Definition example_map : Map :=
  mkMap 2 2
    (fun t =>
       if (Z.land t 3 =? 3) || (3 <=? Z.shiftr t 2) then example_tile MP_VOID 0
       else if t =? 4 then example_tile MP_HOUSE 0
       else if t =? 5 then example_tile MP_ROAD ROAD_NE
       else example_tile MP_CLEAR 0).

Definition example_pool : list Town :=
  [mkTown 0 5 300; mkTown 1 6 100; mkTown 2 9 200].

(** The chain of a search from tile 6 that ends on tile 5: the end node
    first, then its parent, the start node. *)
Definition example_path : PathNode :=
  [mkAyStarNode 5 INVALID_TRACKDIR; mkAyStarNode 6 INVALID_TRACKDIR].

Definition example_after : Map :=
  match PublicRoad_FoundEndNode example_pool example_map example_path with
  | Some m => m
  | None => example_map
  end.

(** A search that finds the way from tile 6 to tile 5 and never finds one
    to tile 9. *)
Definition example_search : Search :=
  fun m start user_target =>
    if user_target =? 9 then None
    else if (start =? 6) && (user_target =? 5) then Some example_path
         else None.

(** ** Notions for the further properties *)

(** Whether [CleanUpRoadBits] keeps bit [i] of a proposal on a valid tile:
    the bit of a direction is kept when the neighbour is connective, any
    other bit always. *)
Definition keeps_bit (m : Map) (tile0 : TileIndex) (i : Z) : bool :=
  forallb (fun d => if road_bit_index d =? i then connective m tile0 d
                    else true)
          all_diagdirs.

(** The slope of a tile is flat or a single incline. *)
Definition flat_or_inclined (m : Map) (t : TileIndex) : bool :=
  (fst (GetTileSlope m t) =? SLOPE_FLAT) ||
  IsInclinedSlope (fst (GetTileSlope m t)).

(** A tile keeps its slope and its height, and keeps its type or has become
    a road tile. *)
Definition terrain_kept (o x : Tile) : Prop :=
  tile_slope x = tile_slope o /\
  tile_height x = tile_height o /\
  (tile_type x = tile_type o \/ tile_type x = MP_ROAD).

(** A map has grown into another: same size, the terrain kept, and every
    normal road tile still one, with all its road bits. *)
Definition map_grows (m m' : Map) : Prop :=
  same_size m m' /\
  forall t, tile_le (map_tiles m t) (map_tiles m' t) /\
            terrain_kept (map_tiles m t) (map_tiles m' t).

(** [a] is a subset of [b], as sets of bits. *)
Definition bits_subset (a b : Z) : Prop :=
  forall i : Z, Z.testbit a i = true -> Z.testbit b i = true.

(** The case of [HasRoadTypesAvail] in which only road is on offer: the
    deity, a town, the scenario editor, or world generation. *)
Definition road_only_context (g : Game) (company : CompanyID) : bool :=
  (company =? OWNER_DEITY) || (company =? OWNER_TOWN) ||
  match game_mode g with GM_EDITOR => true | _ => false end ||
  generating_world g.

(** A road vehicle engine of the climate that the company may use, or that
    has been on the market for a year. *)
Definition engine_counts (g : Game) (company : CompanyID) (e : Engine) : bool :=
  match engine_type e with
  | VEH_ROAD =>
      HasBit (climates e) (landscape g) &&
      (HasBit (company_avail e) company ||
       (intro_date e + DAYS_IN_YEAR <=? date g))
  | _ => false
  end.

(** The test of the loop body of [GetCompanyRoadtypes] on an engine, with
    the sum as the code computes it. *)
Definition engine_passes (g : Game) (company : CompanyID) (e : Engine) : bool :=
  match engine_type e with
  | VEH_ROAD =>
      HasBit (climates e) (landscape g) &&
      (HasBit (company_avail e) company ||
       (int32 (intro_date e + DAYS_IN_YEAR) <=? date g))
  | _ => false
  end.

(** For every road vehicle engine of the pool, the day a year after its
    introduction is a 32-bit date. *)
Definition intro_dates_in_range (g : Game) : Prop :=
  forall e, In e (engine_pool g) -> engine_type e = VEH_ROAD ->
            - 2 ^ 31 <= intro_date e + DAYS_IN_YEAR < 2 ^ 31.

(** The road sub-type of an engine. *)
Definition engine_road_type (e : Engine) : RoadType :=
  if HasBit (misc_flags e) EF_ROAD_TRAM then ROADTYPE_TRAM else ROADTYPE_ROAD.

(** A search engine that never finds a path. *)
Definition never_finds (search : Search) : Prop :=
  forall (m : Map) (start user_target : TileIndex),
    search m start user_target = None.

(** The game at another date. *)
Definition with_date (g : Game) (d : Z) : Game :=
  mkGame (game_mode g) (generating_world g) (current_company g)
         (company_pool g) (engine_pool g) (landscape g) d.

(** The map that the generation leaves on the small map with the search
    [example_search]. *)
Definition example_generated : Map :=
  match GeneratePublicRoads insertion_sort example_search example_pool 2
                            example_map with
  | Returned m => m
  | _ => example_map
  end.

(** A game during world generation, with one company that has road and
    tram, a bus of 1950 and a tram of 1960 (days since the year 0 are
    about 712000 and 716000), in the year 1955. *)
Definition example_game : Game :=
  mkGame GM_NORMAL true 0
         (fun c => if c =? 0 then Some (mkCompany 3) else None)
         [mkEngine VEH_ROAD 15 0 712000 0; mkEngine VEH_ROAD 15 0 716000 1;
          mkEngine VEH_TRAIN 15 1 700000 0]
         0 714000.

(** The small map with a level crossing on tile 6: a road tile that is not
    a normal road tile. *)
Definition crossing_map : Map :=
  set_tile example_map 6
    (mkTile MP_ROAD SLOPE_FLAT 0 SLOPE_FLAT ROAD_TILE_CROSSING ROAD_NONE
            ROAD_NONE ROAD_NONE ROAD_NONE RAIL_TILE_NORMAL 0 WATER_TILE_CLEAR
            0 OWNER_NONE OWNER_NONE).

(** The chain of a search from tile 5 that ends on the crossing, tile 6. *)
Definition crossing_path : PathNode :=
  [mkAyStarNode 6 INVALID_TRACKDIR; mkAyStarNode 5 INVALID_TRACKDIR].

(* ===================================================================== *)
(** * Part III: properties *)
(* ===================================================================== *)

(** ** Bits *)

Lemma land_pow2_eqb (a k : Z) :
  0 <= k -> (Z.land a (2 ^ k) =? 0) = negb (Z.testbit a k).
Proof.
  intros Hk. destruct (Z.testbit a k) eqn:E; simpl.
  - apply Z.eqb_neq. intros H.
    assert (T : Z.testbit (Z.land a (2 ^ k)) k = true).
    { rewrite Z.land_spec, E, Z.pow2_bits_true; auto. }
    rewrite H, Z.bits_0 in T. discriminate.
  - apply Z.eqb_eq. apply Z.bits_inj'. intros i Hi.
    rewrite Z.land_spec, Z.bits_0, Z.pow2_bits_eqb by assumption.
    destruct (Z.eqb_spec k i); subst; rewrite ?E; auto using andb_false_r.
Qed.

Lemma lxor_pow2_bits (a k i : Z) :
  0 <= k -> Z.testbit (Z.lxor a (2 ^ k)) i = xorb (Z.testbit a i) (k =? i).
Proof.
  intros Hk. rewrite Z.lxor_spec, Z.pow2_bits_eqb by assumption. reflexivity.
Qed.

Lemma road_bit_index_range (d : DiagDirection) : 0 <= road_bit_index d < 4.
Proof. destruct d; vm_compute; split; congruence. Qed.

Lemma DiagDirToRoadBits_pow2 (d : DiagDirection) :
  DiagDirToRoadBits d = 2 ^ road_bit_index d.
Proof. destruct d; reflexivity. Qed.

Lemma road_bit_index_inj (d e : DiagDirection) :
  road_bit_index d = road_bit_index e -> d = e.
Proof. destruct d, e; vm_compute; congruence. Qed.

Lemma MirrorRoadBits_DiagDir (d : DiagDirection) :
  MirrorRoadBits (DiagDirToRoadBits d) = DiagDirToRoadBits (ReverseDiagDir d).
Proof. destruct d; reflexivity. Qed.

Lemma has_road_bit_DiagDir (d e : DiagDirection) :
  has_road_bit (DiagDirToRoadBits d) e = true <-> d = e.
Proof. destruct d, e; vm_compute; split; congruence. Qed.

Lemma has_road_bit_lor (a b : RoadBits) (d : DiagDirection) :
  has_road_bit (Z.lor a b) d = has_road_bit a d || has_road_bit b d.
Proof. unfold has_road_bit. apply Z.lor_spec. Qed.

Lemma TileType_eqb_eq (a b : TileType) : TileType_eqb a b = true <-> a = b.
Proof. destruct a, b; simpl; split; congruence. Qed.

(** ** Geometry of the map *)

Lemma Delta_spec (a b : Z) : Delta a b = Z.abs (a - b).
Proof. unfold Delta. destruct (Z.ltb_spec a b); lia. Qed.

Lemma DistanceManhattan_nonneg m a b : 0 <= DistanceManhattan m a b.
Proof. unfold DistanceManhattan. rewrite !Delta_spec. lia. Qed.

Lemma DistanceManhattan_sym m a b :
  DistanceManhattan m a b = DistanceManhattan m b a.
Proof. unfold DistanceManhattan. rewrite !Delta_spec. lia. Qed.

Lemma DistanceManhattan_triangle m a b c :
  DistanceManhattan m a c <= DistanceManhattan m a b + DistanceManhattan m b c.
Proof. unfold DistanceManhattan. rewrite !Delta_spec. lia. Qed.

Lemma MapSizeX_pow2 m : MapSizeX m = 2 ^ MapLogX m.
Proof.
  unfold MapSizeX, MapLogX. rewrite Z.shiftl_1_l. reflexivity.
Qed.

Lemma MapSizeX_pos m : 0 < MapSizeX m.
Proof.
  rewrite MapSizeX_pow2. apply Z.pow_pos_nonneg; [lia|]. unfold MapLogX. lia.
Qed.

Lemma TileX_mod m t : TileX m t = t mod MapSizeX m.
Proof.
  unfold TileX, MapMaxX. rewrite MapSizeX_pow2.
  assert (0 <= MapLogX m) by (unfold MapLogX; lia).
  replace (2 ^ MapLogX m - 1) with (Z.ones (MapLogX m))
    by (rewrite Z.ones_equiv; lia).
  now apply Z.land_ones.
Qed.

Lemma TileY_div m t : TileY m t = t / MapSizeX m.
Proof.
  unfold TileY. rewrite MapSizeX_pow2.
  apply Z.shiftr_div_pow2. unfold MapLogX. lia.
Qed.

Lemma tile_decompose m t : t = TileY m t * MapSizeX m + TileX m t.
Proof.
  rewrite TileX_mod, TileY_div.
  pose proof (Z.div_mod t (MapSizeX m)). pose proof (MapSizeX_pos m). lia.
Qed.

Lemma MapSize_pow2 m :
  MapSize m = 2 ^ (Z.of_nat (map_log_x m) + Z.of_nat (map_log_y m)).
Proof.
  unfold MapSize, MapSizeX, MapSizeY.
  rewrite !Z.shiftl_1_l, Z.pow_add_r by lia. reflexivity.
Qed.

(** On tile indices of 32 bits the sum of the two coordinate differences
    does not wrap. *)
Lemma DistanceManhattan_uint m t0 t1 :
  (map_log_x m <= 32)%nat ->
  0 <= t0 < 2 ^ 32 -> 0 <= t1 < 2 ^ 32 ->
  0 <= DistanceManhattan m t0 t1 < 2 ^ 32.
Proof.
  intros L R0 R1. split; [apply DistanceManhattan_nonneg|].
  unfold DistanceManhattan. rewrite !Delta_spec, !TileX_mod, !TileY_div.
  pose proof (MapSizeX_pos m) as P.
  set (a := MapSizeX m) in *.
  assert (E : 2 ^ 32 = a * 2 ^ (32 - MapLogX m)).
  { unfold a. rewrite MapSizeX_pow2, <- Z.pow_add_r by (unfold MapLogX; lia).
    f_equal. lia. }
  assert (B : 0 < 2 ^ (32 - MapLogX m))
    by (apply Z.pow_pos_nonneg; unfold MapLogX; lia).
  set (b := 2 ^ (32 - MapLogX m)) in *.
  pose proof (Z.mod_pos_bound t0 a P). pose proof (Z.mod_pos_bound t1 a P).
  assert (0 <= t0 / a < b)
    by (split; [apply Z.div_pos; lia|apply Z.div_lt_upper_bound; lia]).
  assert (0 <= t1 / a < b)
    by (split; [apply Z.div_pos; lia|apply Z.div_lt_upper_bound; lia]).
  rewrite E. nia.
Qed.

(** ** [CleanUpRoadBits] *)

Lemma CleanUpRoadBits_step_bits m tile rb d i :
  Z.testbit (CleanUpRoadBits_step m tile rb d) i =
  Z.testbit rb i && (if road_bit_index d =? i then connective m tile d else true).
Proof.
  unfold CleanUpRoadBits_step.
  pose proof (road_bit_index_range d) as R.
  rewrite DiagDirToRoadBits_pow2, land_pow2_eqb, negb_involutive by lia.
  destruct (Z.eqb_spec (road_bit_index d) i) as [<-|N].
  - destruct (Z.testbit rb (road_bit_index d)) eqn:E.
    + destruct (connective m tile d); simpl.
      * now rewrite E.
      * rewrite lxor_pow2_bits, E, Z.eqb_refl by lia. reflexivity.
    + now rewrite E.
  - rewrite andb_true_r.
    destruct (Z.testbit rb (road_bit_index d)); [|reflexivity].
    destruct (connective m tile d); simpl; [reflexivity|].
    rewrite lxor_pow2_bits by lia.
    apply Z.eqb_neq in N. rewrite N. apply xorb_false_r.
Qed.

Lemma CleanUpRoadBits_fold_bits m tile l : forall rb i,
  Z.testbit (fold_left (CleanUpRoadBits_step m tile) l rb) i =
  Z.testbit rb i &&
  forallb (fun d => if road_bit_index d =? i then connective m tile d else true) l.
Proof.
  induction l as [|d l IH]; intros rb i; simpl.
  - now rewrite andb_true_r.
  - rewrite IH, CleanUpRoadBits_step_bits, andb_assoc. reflexivity.
Qed.

Lemma IsPossibleCrossing_iff m n d :
  IsPossibleCrossing m n (DiagDirToAxis d) = true <->
  GetTileType m n = MP_RAILWAY /\
  GetRailTileType m n = RAIL_TILE_NORMAL /\
  GetTrackBits m n = perpendicular_track d /\
  GetFoundationSlope m n = SLOPE_FLAT.
Proof.
  unfold IsPossibleCrossing, IsTileType.
  assert (E : match DiagDirToAxis d return Z with
              | AXIS_X => TRACK_BIT_Y
              | AXIS_Y => TRACK_BIT_X
              end = perpendicular_track d) by (destruct d; reflexivity).
  rewrite E, !andb_true_iff, TileType_eqb_eq, !Z.eqb_eq.
  destruct (GetRailTileType m n); intuition congruence.
Qed.

Lemma connective_iff m tile d :
  connective m tile d = true <->
  Connective_spec m (TileAddByDiagDir m tile d) d.
Proof.
  unfold connective, Connective_spec.
  set (n := TileAddByDiagDir m tile d).
  destruct (IsValidTile m n) eqn:V;
    [|split; [discriminate|intros [? _]; discriminate]].
  rewrite MirrorRoadBits_DiagDir, DiagDirToRoadBits_pow2.
  pose proof (road_bit_index_range (ReverseDiagDir d)) as R.
  rewrite land_pow2_eqb, negb_involutive by lia.
  unfold has_road_bit.
  pose proof (IsPossibleCrossing_iff m n d) as X.
  destruct (GetTileType m n) eqn:T;
    try (destruct (IsNormalRoadTile m n); intuition congruence);
    try (rewrite negb_true_iff; intuition congruence);
    intuition congruence.
Qed.

Lemma forallb_all_diagdirs (c : DiagDirection -> bool) (d : DiagDirection) :
  forallb (fun e => if road_bit_index e =? road_bit_index d then c e else true)
          all_diagdirs = c d.
Proof. destruct d; simpl; rewrite ?andb_true_r; reflexivity. Qed.

Lemma CleanUpRoadBits_has_road_bit m tile org_rb d :
  IsValidTile m tile = true ->
  has_road_bit (CleanUpRoadBits m tile org_rb) d =
  has_road_bit org_rb d && connective m tile d.
Proof.
  intros V. unfold CleanUpRoadBits, has_road_bit. rewrite V. simpl negb. cbv iota.
  rewrite CleanUpRoadBits_fold_bits, forallb_all_diagdirs. reflexivity.
Qed.

(** C1.  On a valid tile, [CleanUpRoadBits] keeps the bit of a direction
    exactly when the bit is proposed and the neighbour in that direction is
    connective by the case analysis of the Connectivity Validator: clear
    ground and trees always; a tunnel or bridge, station or road neighbour
    when it is a normal road tile or when its road and tram pieces together
    contain the mirrored direction; a railway neighbour when it is plain
    straight rail across the road on a flat foundation; a water neighbour
    when it is not real water; nothing else, and no invalid neighbour.  The
    result has no bit that the proposal lacks. *)
Theorem CleanUpRoadBits_keeps_connective (m : Map) (tile : TileIndex)
  (org_rb : RoadBits) :
  IsValidTile m tile = true ->
  (forall d : DiagDirection,
      has_road_bit (CleanUpRoadBits m tile org_rb) d = true <->
      has_road_bit org_rb d = true /\
      Connective_spec m (TileAddByDiagDir m tile d) d) /\
  (forall i : Z,
      Z.testbit (CleanUpRoadBits m tile org_rb) i = true ->
      Z.testbit org_rb i = true).
Proof.
  intros V. split.
  - intros d. rewrite CleanUpRoadBits_has_road_bit by assumption.
    rewrite andb_true_iff, connective_iff. reflexivity.
  - intros i. unfold CleanUpRoadBits. rewrite V. simpl negb. cbv iota.
    rewrite CleanUpRoadBits_fold_bits, andb_true_iff. tauto.
Qed.

(** C9.  On a tile that is not a valid map tile, [CleanUpRoadBits] returns
    the empty road-bit set whatever the proposed bits are. *)
Theorem CleanUpRoadBits_invalid_tile (m : Map) (tile : TileIndex)
  (org_rb : RoadBits) :
  IsValidTile m tile = false -> CleanUpRoadBits m tile org_rb = ROAD_NONE.
Proof. intros V. unfold CleanUpRoadBits. now rewrite V. Qed.

(** ** [CanBuildRoadFromTo] *)

Lemma CanBuildRoadFromTo_assert m b e :
  DistanceManhattan m b e <> 1 -> CanBuildRoadFromTo m b e = None.
Proof.
  intros H. unfold CanBuildRoadFromTo.
  apply Z.eqb_neq in H. now rewrite H.
Qed.

Lemma CanBuildRoadFromTo_Some m b e r :
  CanBuildRoadFromTo m b e = Some r -> DistanceManhattan m b e = 1.
Proof.
  unfold CanBuildRoadFromTo.
  destruct (Z.eqb_spec (DistanceManhattan m b e) 1); [auto|discriminate].
Qed.

Lemma CanBuildRoadFromTo_returns m b e :
  DistanceManhattan m b e = 1 -> exists r, CanBuildRoadFromTo m b e = Some r.
Proof.
  intros D. unfold CanBuildRoadFromTo. rewrite D. simpl bind.
  destruct (GetTileSlope m b), (GetTileSlope m e). eauto.
Qed.

(** C5.  [CanBuildRoadFromTo] asserts that its two tiles are at Manhattan
    distance 1: at another distance the assertion fails and nothing is
    returned.  At distance 1 it returns a result, and the result is true
    exactly when the slope of the destination is flat or a single incline
    and, moreover, both ends have the same incline at different heights or
    one of the two ends is flat. *)
Theorem CanBuildRoadFromTo_adjacent (m : Map) (begin end_ : TileIndex) :
  (DistanceManhattan m begin end_ <> 1 ->
   CanBuildRoadFromTo m begin end_ = None) /\
  (DistanceManhattan m begin end_ = 1 ->
   exists r : bool,
     CanBuildRoadFromTo m begin end_ = Some r /\
     (r = true <-> edge_admissible_spec m begin end_)).
Proof.
  split; [apply CanBuildRoadFromTo_assert|].
  intros D. unfold CanBuildRoadFromTo, edge_admissible_spec.
  rewrite D. unfold GetTileSlope. simpl bind.
  set (sb := tile_slope (map_tiles m begin)).
  set (hb := tile_height (map_tiles m begin)).
  set (se := tile_slope (map_tiles m end_)).
  set (he := tile_height (map_tiles m end_)).
  eexists. split; [reflexivity|].
  rewrite andb_true_iff, !orb_true_iff, andb_true_iff, negb_true_iff.
  rewrite !Z.eqb_eq, Z.eqb_neq.
  split.
  - intros [H1 H2]. split; [exact H1|].
    destruct H2 as [[[E N]|F]|F]; auto.
    destruct H1 as [F|I]; [auto|].
    left. rewrite <- E. auto.
  - intros [H1 H2]. split; [exact H1|].
    destruct H2 as [(_ & _ & E & N)|[F|F]]; auto.
Qed.

(** ** [PublicRoad_GetNeighbours] *)

Lemma GetNeighbours_step_Some m tile0 acc d l :
  PublicRoad_GetNeighbours_step m tile0 acc d = Some l ->
  l = acc ++ selected m tile0 d.
Proof.
  unfold PublicRoad_GetNeighbours_step, selected.
  destruct (IsValidTile m _); [|intros [= <-]; now rewrite app_nil_r].
  destruct (CanBuildRoadFromTo m tile0 _) as [[|]|]; simpl; [| |discriminate].
  - destruct (_ || _ || _); intros [= <-]; now rewrite ?app_nil_r.
  - intros [= <-]; now rewrite app_nil_r.
Qed.

Lemma GetNeighbours_step_total m tile0 acc d :
  probes_adjacent m tile0 ->
  exists l, PublicRoad_GetNeighbours_step m tile0 acc d = Some l.
Proof.
  intros P. unfold PublicRoad_GetNeighbours_step.
  destruct (IsValidTile m _) eqn:V; [|eauto].
  destruct (CanBuildRoadFromTo_returns m tile0 _ (P d V)) as (r & ->).
  simpl. destruct (r && _); eauto.
Qed.

Lemma GetNeighbours_for_each_Some m tile0 ds : forall acc l,
  for_each (PublicRoad_GetNeighbours_step m tile0) ds acc = Some l ->
  l = acc ++ flat_map (selected m tile0) ds.
Proof.
  induction ds as [|d ds IH]; simpl; intros acc l H.
  - injection H as <-. now rewrite app_nil_r.
  - destruct (PublicRoad_GetNeighbours_step m tile0 acc d) as [acc'|] eqn:E;
      [|discriminate].
    simpl in H. apply IH in H. apply GetNeighbours_step_Some in E.
    subst. now rewrite <- app_assoc.
Qed.

Lemma GetNeighbours_for_each_total m tile0 ds : forall acc,
  probes_adjacent m tile0 ->
  exists l, for_each (PublicRoad_GetNeighbours_step m tile0) ds acc = Some l.
Proof.
  induction ds as [|d ds IH]; simpl; intros acc P; [eauto|].
  destruct (GetNeighbours_step_total m tile0 acc d P) as [acc' ->].
  simpl. auto.
Qed.

Lemma selected_length m tile0 d : (length (selected m tile0 d) <= 1)%nat.
Proof.
  unfold selected. destruct (IsValidTile m _); simpl; [|lia].
  destruct (CanBuildRoadFromTo m tile0 _) as [[|]|]; simpl; try lia.
  destruct (_ || _ || _); simpl; lia.
Qed.

Lemma selected_In m tile0 d n :
  In n (selected m tile0 d) <->
  n = mkAyStarNode (TILE_ADD tile0 (TileOffsByDiagDir m d)) INVALID_TRACKDIR /\
  IsValidTile m (tile n) = true /\
  CanBuildRoadFromTo m tile0 (tile n) = Some true /\
  (GetTileType m (tile n) = MP_CLEAR \/ GetTileType m (tile n) = MP_TREES \/
   GetTileType m (tile n) = MP_ROAD).
Proof.
  unfold selected, IsTileType.
  set (t2 := TILE_ADD tile0 (TileOffsByDiagDir m d)).
  split.
  - destruct (IsValidTile m t2) eqn:V; [|intros []].
    destruct (CanBuildRoadFromTo m tile0 t2) as [[|]|] eqn:C; try (intros []).
    destruct (_ || _ || _) eqn:T; [|intros []].
    intros [<-|[]]. simpl. repeat split; auto.
    rewrite !orb_true_iff, !TileType_eqb_eq in T. tauto.
  - intros (-> & V & C & T). simpl in V, C, T. rewrite V, C.
    destruct T as [ -> | [ -> | -> ] ]; simpl; auto.
Qed.

Lemma GetNeighbours_Some m current l :
  PublicRoad_GetNeighbours m current = Some l ->
  (length l <= 4)%nat /\
  forall n, In n l <->
            direction n = INVALID_TRACKDIR /\
            neighbour_spec m (tile current) (tile n).
Proof.
  intros H. apply GetNeighbours_for_each_Some in H. simpl in H.
  rewrite app_nil_r in H. subst l. split.
  - rewrite !length_app.
    pose proof (selected_length m (tile current) DIAGDIR_NE).
    pose proof (selected_length m (tile current) DIAGDIR_SE).
    pose proof (selected_length m (tile current) DIAGDIR_SW).
    pose proof (selected_length m (tile current) DIAGDIR_NW).
    simpl length. lia.
  - intros n. rewrite !in_app_iff, !selected_In. split.
    + intros H.
      assert (X : exists d, n = mkAyStarNode (TILE_ADD (tile current)
                                 (TileOffsByDiagDir m d)) INVALID_TRACKDIR /\
                  IsValidTile m (tile n) = true /\
                  CanBuildRoadFromTo m (tile current) (tile n) = Some true /\
                  (GetTileType m (tile n) = MP_CLEAR \/
                   GetTileType m (tile n) = MP_TREES \/
                   GetTileType m (tile n) = MP_ROAD)).
      { destruct H as [H|[H|[H|H]]]; eauto. }
      destruct X as (d & E & V & C & T). split.
      * now rewrite E.
      * exists d. rewrite E at 1. simpl. auto.
    + intros (Dn & d & E & V & C & T).
      assert (N : n = mkAyStarNode (TILE_ADD (tile current)
                         (TileOffsByDiagDir m d)) INVALID_TRACKDIR).
      { destruct n as [tn dn]. simpl in *. congruence. }
      destruct d; tauto.
Qed.

(** On a map with a void last column and at most [2 ^ 31] tiles, the
    probes from a valid tile respect the contract: an offset that leaves
    the row or the map ends on a void tile or outside the map. *)
Lemma coordinates_shift (s t k : Z) :
  0 < s -> 0 <= t mod s + k < s ->
  (t + k) mod s = t mod s + k /\ (t + k) / s = t / s.
Proof.
  intros P R. pose proof (Z.div_mod t s).
  split; symmetry.
  - apply (Z.mod_unique_pos _ _ (t / s)); lia.
  - apply (Z.div_unique_pos _ _ _ (t mod s + k)); lia.
Qed.

Lemma coordinates_row (s t j : Z) :
  0 < s -> (t + j * s) mod s = t mod s /\ (t + j * s) / s = t / s + j.
Proof.
  intros P. split; [apply Z_mod_plus_full|apply Z.div_add; lia].
Qed.

Lemma probes_adjacent_void_border m tile0 :
  Z.of_nat (map_log_x m) + Z.of_nat (map_log_y m) <= 31 ->
  void_border m ->
  0 <= tile0 -> IsValidTile m tile0 = true ->
  probes_adjacent m tile0.
Proof.
  intros Fit Border Pos V d V2.
  pose proof (MapSizeX_pos m) as P.
  assert (M31 : MapSize m <= 2 ^ 31)
    by (rewrite MapSize_pow2; apply Z.pow_le_mono_r; lia).
  assert (SX : MapSizeX m <= MapSize m).
  { unfold MapSize. assert (0 < MapSizeY m); [|nia].
    unfold MapSizeY. rewrite Z.shiftl_1_l. apply Z.pow_pos_nonneg; lia. }
  assert (NotVoid : forall t, 0 <= t -> IsValidTile m t = true ->
                              t < MapSize m /\ t mod MapSizeX m <> MapSizeX m - 1).
  { intros t T Vt. unfold IsValidTile, IsTileType in Vt.
    apply andb_true_iff in Vt as [Lt Nv]. apply Z.ltb_lt in Lt.
    split; [exact Lt|]. intros E.
    rewrite (Border t) in Nv; [discriminate|lia|].
    now rewrite TileX_mod. }
  destruct (NotVoid tile0 Pos V) as [L0 X0].
  pose proof (Z.mod_pos_bound tile0 (MapSizeX m) P) as B0.
  revert V2. unfold TILE_ADD, uint32.
  unfold DistanceManhattan. rewrite !Delta_spec, !TileX_mod, !TileY_div.
  destruct d; cbv [TileOffsByDiagDir tileoffs_by_diagdir].
  - (* DIAGDIR_NE *)
    replace (0 * MapSizeX m + -1) with (-1) by lia.
    destruct (Z.eq_dec tile0 0) as [->|NZ].
    + intros V2. apply NotVoid in V2 as [L2 _]; [|now vm_compute].
      change ((0 + -1) mod 2 ^ 32) with (2 ^ 32 - 1) in L2. lia.
    + rewrite (Z.mod_small (tile0 + -1)) by lia. intros V2.
      destruct (Z.eq_dec (tile0 mod MapSizeX m) 0) as [Z0|NZ0].
      * apply NotVoid in V2 as [_ X2]; [|lia]. exfalso. apply X2.
        pose proof (Z.div_mod tile0 (MapSizeX m)).
        symmetry. apply (Z.mod_unique_pos _ _ (tile0 / MapSizeX m - 1)); lia.
      * destruct (coordinates_shift (MapSizeX m) tile0 (-1) P) as [-> ->]; lia.
  - (* DIAGDIR_SE *)
    replace (1 * MapSizeX m + 0) with (MapSizeX m) by lia. intros _.
    rewrite (Z.mod_small (tile0 + MapSizeX m)) by lia.
    destruct (coordinates_row (MapSizeX m) tile0 1 P) as [E1 E2].
    rewrite Z.mul_1_l in E1, E2. rewrite E1, E2. lia.
  - (* DIAGDIR_SW *)
    replace (0 * MapSizeX m + 1) with 1 by lia. intros _.
    rewrite (Z.mod_small (tile0 + 1)) by lia.
    destruct (coordinates_shift (MapSizeX m) tile0 1 P) as [-> ->]; lia.
  - (* DIAGDIR_NW *)
    replace (-1 * MapSizeX m + 0) with (- MapSizeX m) by lia.
    destruct (Z_lt_le_dec tile0 (MapSizeX m)) as [Lt|Ge].
    + intros V2. exfalso.
      assert (E : (tile0 + - MapSizeX m) mod 2 ^ 32
                  = tile0 - MapSizeX m + 2 ^ 32).
      { symmetry. apply (Z.mod_unique_pos _ _ (-1)); lia. }
      rewrite E in V2. apply NotVoid in V2 as [L2 _]; lia.
    + intros _. rewrite (Z.mod_small (tile0 + - MapSizeX m)) by lia.
      destruct (coordinates_row (MapSizeX m) tile0 (-1) P) as [E1 E2].
      replace (tile0 + -1 * MapSizeX m) with (tile0 + - MapSizeX m) in E1, E2
        by lia.
      rewrite E1, E2. lia.
Qed.

Lemma GetNeighbours_for_each_probes m tile0 ds : forall acc l,
  for_each (PublicRoad_GetNeighbours_step m tile0) ds acc = Some l ->
  forall d, In d ds ->
    IsValidTile m (TILE_ADD tile0 (TileOffsByDiagDir m d)) = true ->
    DistanceManhattan m tile0 (TILE_ADD tile0 (TileOffsByDiagDir m d)) = 1.
Proof.
  induction ds as [|e ds IH]; simpl; intros acc l H d I V; [destruct I|].
  destruct (PublicRoad_GetNeighbours_step m tile0 acc e) as [acc'|] eqn:E;
    [|discriminate].
  destruct I as [->|I]; [|eapply IH; eassumption].
  unfold PublicRoad_GetNeighbours_step in E. rewrite V in E.
  destruct (CanBuildRoadFromTo m tile0 _) as [r|] eqn:C; [|discriminate].
  eapply CanBuildRoadFromTo_Some; eassumption.
Qed.

(** C6.  The expansion of a node returns a list of neighbours exactly when
    its probes respect the contract of [CanBuildRoadFromTo] (every valid
    offset tile is adjacent; otherwise the assertion fails).  The list has
    at most 4 nodes, and a tile is in it exactly when it is the offset tile
    of the current tile in one of the 4 directions, is a valid map
    position, passes the edge precheck from the current tile, and is clear
    ground, trees or road. *)
Theorem PublicRoad_GetNeighbours_spec (m : Map) (current : AyStarNode) :
  (probes_adjacent m (tile current) <->
   exists l, PublicRoad_GetNeighbours m current = Some l) /\
  (forall l : list AyStarNode,
      PublicRoad_GetNeighbours m current = Some l ->
      (length l <= 4)%nat /\
      (forall t2 : TileIndex,
          In t2 (map tile l) <-> neighbour_spec m (tile current) t2)).
Proof.
  split; [split|].
  - apply GetNeighbours_for_each_total.
  - intros [l E] d. eapply GetNeighbours_for_each_probes; [exact E|].
    destruct d; simpl; auto.
  - intros l E.
    destruct (GetNeighbours_Some m current l E) as [L I].
    split; [exact L|].
    intros t2. rewrite in_map_iff. split.
    + intros (n & <- & Hn). now apply I.
    + intros S. exists (mkAyStarNode t2 INVALID_TRACKDIR).
      split; [reflexivity|]. apply I. auto.
Qed.

(** ** The heuristic *)

Lemma int32_le (z : Z) : 0 <= z -> int32 z <= z.
Proof.
  intros H. unfold int32.
  pose proof (Z.mod_le (z + 2 ^ 31) (2 ^ 32)). lia.
Qed.

Lemma expands_to_adjacent m a b :
  expands_to m a b -> DistanceManhattan m (tile a) (tile b) = 1.
Proof.
  intros (l & E & I).
  apply GetNeighbours_Some in E as [_ E].
  apply E in I as (_ & d & _ & _ & C & _).
  eapply CanBuildRoadFromTo_Some; eassumption.
Qed.

Lemma buildable_path_distance m a steps c :
  buildable_path m a steps c ->
  DistanceManhattan m (tile c) (tile a) <= path_cost a steps.
Proof.
  induction 1 as [a|a b c steps E _ IH]; cbn [path_cost].
  - unfold DistanceManhattan. rewrite !Delta_spec. lia.
  - apply expands_to_adjacent in E.
    pose proof (DistanceManhattan_triangle m (tile c) (tile b) (tile a)).
    rewrite (DistanceManhattan_sym m (tile b) (tile a)) in H.
    unfold PublicRoad_CalculateG. lia.
Qed.

(** C7.  The heuristic is admissible on the search graph: along every path
    of expansion steps from a node to the target, the value of
    [PublicRoad_CalculateH] at the node is at most the sum of the step
    costs [PublicRoad_CalculateG], each of which is 1. *)
Theorem PublicRoad_CalculateH_admissible (m : Map) (a c : AyStarNode)
  (steps : list AyStarNode) :
  buildable_path m a steps c ->
  PublicRoad_CalculateH m (tile c) a <= path_cost a steps /\
  path_cost a steps = Z.of_nat (length steps).
Proof.
  intros P. split.
  - unfold PublicRoad_CalculateH.
    pose proof (buildable_path_distance m a steps c P).
    pose proof (int32_le _ (DistanceManhattan_nonneg m (tile c) (tile a))).
    lia.
  - clear P. revert a. induction steps as [|b steps IH]; intros a.
    + reflexivity.
    + cbn [path_cost length]. rewrite IH. unfold PublicRoad_CalculateG. lia.
Qed.

(** ** Sorting by insertion meets the contract of [std::sort] *)

Lemma insert_sorted_Permutation lt x l :
  Permutation (x :: l) (insert_sorted lt x l).
Proof.
  induction l as [|y l IH]; simpl; [reflexivity|].
  destruct (lt x y); [reflexivity|].
  rewrite perm_swap. now apply perm_skip.
Qed.

Lemma insertion_sort_Permutation lt l : Permutation l (insertion_sort lt l).
Proof.
  induction l as [|x l IH]; simpl; [reflexivity|].
  rewrite <- insert_sorted_Permutation. now apply perm_skip.
Qed.

Lemma insert_sorted_Sorted (key : Town -> Z) x l :
  StronglySorted (fun a b => key a <= key b) l ->
  StronglySorted (fun a b => key a <= key b)
                 (insert_sorted (fun a b => key a <? key b) x l).
Proof.
  induction 1 as [|y l S IH F]; simpl.
  - repeat constructor.
  - destruct (Z.ltb_spec (key x) (key y)).
    + constructor; [now constructor|].
      constructor; [lia|].
      eapply Forall_impl; [|exact F]. simpl. intros; lia.
    + constructor; [exact IH|].
      eapply Permutation_Forall; [apply insert_sorted_Permutation|].
      constructor; [lia|exact F].
Qed.

Lemma insertion_sort_contract : sort_contract insertion_sort.
Proof.
  split.
  - apply insertion_sort_Permutation.
  - intros key l. induction l as [|x l IH]; simpl.
    + constructor.
    + now apply insert_sorted_Sorted.
Qed.

(** ** [GeneratePublicRoads] *)

Section GeneratorProperties.

Variable sort : (Town -> Town -> bool) -> list Town -> list Town.
Variable search : Search.
Variable pool : list Town.
Hypothesis sort_ok : sort_contract sort.

Lemma sort_length lt l : length (sort lt l) = length l.
Proof. symmetry. apply Permutation_length, sort_ok. Qed.

Lemma sort_nonempty lt l : l <> [] -> sort lt l <> [].
Proof.
  intros N E. apply (f_equal (@length Town)) in E.
  rewrite sort_length in E. destruct l; [congruence|discriminate].
Qed.

(** The [for_each] over the towns computes the connect loop of the
    specification. *)
Lemma for_each_connect_trace begin l m m' next :
  connect_trace search pool begin m l m' next ->
  forall finder acc,
    for_each (connect search pool begin) l (finder, m, acc)
    = Some (finder_after finder l, m', acc ++ next).
Proof.
  induction 1 as [m|m m1 m' e rest next path S F T IH
                   |m m' e rest next S T IH]; intros finder acc; simpl.
  - now rewrite app_nil_r.
  - unfold connect at 1, finder_Main. rewrite S, F. simpl. apply IH.
  - unfold connect at 1, finder_Main. rewrite S. simpl.
    rewrite IH, <- app_assoc. reflexivity.
Qed.

Lemma for_each_connect_Some begin l : forall finder m acc finder' m' out,
  for_each (connect search pool begin) l (finder, m, acc)
  = Some (finder', m', out) ->
  finder' = finder_after finder l /\
  exists next, out = acc ++ next /\ connect_trace search pool begin m l m' next.
Proof.
  induction l as [|e l IH]; intros finder m acc finder' m' out; simpl.
  - intros [= <- <- <-]. split; [reflexivity|].
    exists []. split; [now rewrite app_nil_r|constructor].
  - unfold connect at 1, finder_Main.
    destruct (search m (xy begin) (xy e)) as [path|] eqn:S.
    + destruct (PublicRoad_FoundEndNode pool m path) as [m1|] eqn:F;
        [|discriminate].
      simpl. intros H. apply IH in H as (-> & next & -> & T).
      split; [reflexivity|].
      exists next. split; [reflexivity|]. econstructor; eassumption.
    + simpl. intros H. apply IH in H as (-> & next & -> & T).
      split; [reflexivity|].
      exists (e :: next). split; [now rewrite <- app_assoc|].
      now constructor.
Qed.

Lemma finder_after_Initialized l : finder_after Initialized l = Initialized.
Proof. unfold finder_after. induction l as [|x l IH]; simpl; auto. Qed.

Lemma finder_after_cons finder e l : finder_after finder (e :: l) = Initialized.
Proof. apply finder_after_Initialized. Qed.

Lemma connect_trace_length begin l m m' next :
  connect_trace search pool begin m l m' next ->
  (length next <= length l)%nat.
Proof. induction 1; simpl; lia. Qed.

(** A settlement without a path is requeued by every round that searches
    for it. *)
Lemma connect_trace_unreachable begin l m m' next u :
  connect_trace search pool begin m l m' next ->
  unreachable search u -> In u l -> In u next.
Proof.
  intros T U. induction T as [m|m m1 m' e rest next path S F T IH
                                |m m' e rest next S T IH]; simpl.
  - auto.
  - intros [->|I]; [|auto]. rewrite U in S. discriminate.
  - intros [->|I]; auto.
Qed.

(** C8.  A round of [GeneratePublicRoads] on a non-empty unconnected set,
    whatever the state of the engine: the set is sorted by ascending
    population and its first, smallest element [begin] is taken out as the
    start; the others are sorted by ascending Manhattan distance from
    [begin] and searched in that order; the next round gets exactly the
    settlements whose search found no path, and the run goes on with them
    or, when there are none, leaves the loop, frees the engine and returns
    (on an engine that was set up, [finder_Free] is [Returned]). *)
Theorem GeneratePublicRoads_round (fuel : nat) (finder : AyStar) (m : Map)
  (unconnected_towns : list Town) :
  unconnected_towns <> [] ->
  exists (begin : Town) (rest order : list Town),
    sort (fun a b => population a <? population b) unconnected_towns
      = begin :: rest /\
    Permutation unconnected_towns (begin :: rest) /\
    StronglySorted (fun a b => population a <= population b) (begin :: rest) /\
    (forall t, In t unconnected_towns -> population begin <= population t) /\
    Permutation rest order /\
    StronglySorted (fun a b => DistanceManhattan m (xy begin) (xy a) <=
                               DistanceManhattan m (xy begin) (xy b)) order /\
    (forall m' next,
        connect_trace search pool begin m order m' next ->
        GeneratePublicRoads_loop sort search pool (S fuel) finder m
                                 unconnected_towns
        = match next with
          | [] => finder_Free (finder_after finder order) m'
          | _ => GeneratePublicRoads_loop sort search pool fuel
                                          (finder_after finder order) m' next
          end) /\
    ((forall m' next, ~ connect_trace search pool begin m order m' next) ->
     GeneratePublicRoads_loop sort search pool (S fuel) finder m
                              unconnected_towns
     = AssertionFailed).
Proof.
  intros N. destruct sort_ok as [SP SS].
  pose proof (sort_nonempty (fun a b => population a <? population b) _ N) as N'.
  destruct (sort (fun a b => population a <? population b) unconnected_towns)
    as [|begin rest] eqn:E; [congruence|clear N'].
  set (order := sort (fun a b => DistanceManhattan m (xy begin) (xy a) <?
                                 DistanceManhattan m (xy begin) (xy b)) rest).
  exists begin, rest, order.
  assert (P : Permutation unconnected_towns (begin :: rest))
    by (rewrite <- E; apply SP).
  assert (S1 : StronglySorted (fun a b => population a <= population b)
                              (begin :: rest))
    by (rewrite <- E; apply (SS population)).
  split; [reflexivity|]. split; [exact P|]. split; [exact S1|].
  split; [|split; [apply SP|split; [|split]]].
  - intros t I. apply (Permutation_in _ P) in I.
    inversion S1 as [|? ? _ F]; subst.
    destruct I as [<-|I]; [lia|].
    rewrite Forall_forall in F. now apply F.
  - apply (SS (fun t => DistanceManhattan m (xy begin) (xy t))).
  - intros m' next T. cbn [GeneratePublicRoads_loop]. rewrite E.
    fold order. rewrite (for_each_connect_trace _ _ _ _ _ T finder []).
    reflexivity.
  - intros X. cbn [GeneratePublicRoads_loop]. rewrite E. fold order.
    destruct (for_each (connect search pool begin) order (finder, m, []))
      as [[[finder' m'] out]|] eqn:F; [|reflexivity].
    apply for_each_connect_Some in F as (_ & next & _ & T).
    exfalso. exact (X _ _ T).
Qed.

Lemma GeneratePublicRoads_loop_in_bounds (fuel : nat) :
  forall finder m unconnected_towns,
    unconnected_towns <> [] ->
    GeneratePublicRoads_loop sort search pool fuel finder m unconnected_towns
    <> EmptyVectorAccess.
Proof.
  induction fuel as [|fuel IH]; intros finder m towns N; [discriminate|].
  cbn [GeneratePublicRoads_loop].
  pose proof (sort_nonempty (fun a b => population a <? population b) _ N) as N'.
  destruct (sort _ towns) as [|begin rest]; [congruence|].
  destruct (for_each _ _ _) as [[[finder' m'] [|u next]]|]; try discriminate.
  - destruct finder'; discriminate.
  - apply IH. discriminate.
Qed.

(** C10.  [GeneratePublicRoads] reads and erases the first element of the
    sorted vector in every round: with an empty settlement registry the
    first round reads the first element of an empty vector; with at least
    one settlement no round does, whatever the number of rounds. *)
Theorem GeneratePublicRoads_needs_a_town (m : Map) :
  (pool = [] ->
   forall fuel, GeneratePublicRoads sort search pool (S fuel) m
                = EmptyVectorAccess) /\
  (pool <> [] ->
   forall fuel, GeneratePublicRoads sort search pool fuel m
                <> EmptyVectorAccess).
Proof.
  split.
  - intros -> fuel. unfold GeneratePublicRoads. cbn [GeneratePublicRoads_loop].
    pose proof (sort_length (fun a b => population a <? population b) []) as L.
    destruct (sort _ []); [reflexivity|discriminate].
  - intros N fuel. now apply GeneratePublicRoads_loop_in_bounds.
Qed.

Lemma GeneratePublicRoads_loop_fuel (fuel : nat) :
  forall finder m unconnected_towns,
    (1 <= fuel)%nat ->
    (length unconnected_towns <= fuel)%nat ->
    GeneratePublicRoads_loop sort search pool fuel finder m unconnected_towns
    <> OutOfFuel.
Proof.
  induction fuel as [|fuel IH]; intros finder m towns F L; [lia|].
  cbn [GeneratePublicRoads_loop].
  pose proof (sort_length (fun a b => population a <? population b) towns) as L1.
  destruct (sort _ towns) as [|begin rest]; [discriminate|].
  match goal with
  | |- context [for_each ?f (sort ?lt rest) ?s] =>
      pose proof (sort_length lt rest) as L2;
      destruct (for_each f (sort lt rest) s) as [[[finder' m'] out]|] eqn:E
  end; [|discriminate].
  apply for_each_connect_Some in E as (_ & next & -> & T).
  apply connect_trace_length in T. simpl in *.
  destruct next as [|u next]; [destruct finder'; discriminate|].
  apply IH; simpl in *; lia.
Qed.

(** C2, as the code has it.  The retry loop is bounded: every round takes
    its start settlement out of the unconnected set for good, so with [n]
    settlements, [n >= 1], the run ends within [n] rounds, whatever the
    searches find, also when a settlement is unreachable. *)
Theorem GeneratePublicRoads_terminates (fuel : nat) (m : Map) :
  (1 <= fuel)%nat ->
  (length pool <= fuel)%nat ->
  GeneratePublicRoads sort search pool fuel m <> OutOfFuel.
Proof. apply GeneratePublicRoads_loop_fuel. Qed.

End GeneratorProperties.

(** ** The closest town *)

Lemma CalcClosestTownFromTile_fold m tile0 l : forall best o,
  let r := fold_left
             (fun (acc : Z * option Town) (t : Town) =>
                let dist := DistanceManhattan m tile0 (xy t) in
                if dist <? fst acc then (dist, Some t) else acc)
             l (best, o) in
  fst r <= best /\
  (forall t, In t l -> fst r <= DistanceManhattan m tile0 (xy t)) /\
  ((snd r = o /\ fst r = best) \/
   exists town, snd r = Some town /\ In town l /\
                fst r = DistanceManhattan m tile0 (xy town)).
Proof.
  induction l as [|t l IH]; intros best o; cbn [fold_left].
  - simpl. split; [lia|]. split; [tauto|]. now left.
  - cbn zeta. cbn [fst].
    destruct (Z.ltb_spec (DistanceManhattan m tile0 (xy t)) best) as [Lt|Ge].
    + destruct (IH (DistanceManhattan m tile0 (xy t)) (Some t)) as (A & B & C).
      cbn zeta in A, B, C.
      split; [lia|]. split.
      * intros t' [<-|I]; [exact A|now apply B].
      * right. destruct C as [[C1 C2]|(town & C1 & C2 & C3)].
        -- exists t. split; [exact C1|]. split; [now left|exact C2].
        -- exists town. split; [exact C1|]. split; [now right|exact C3].
    + destruct (IH best o) as (A & B & C). cbn zeta in A, B, C.
      split; [exact A|]. split.
      * intros t' [<-|I]; [lia|now apply B].
      * destruct C as [C|(town & C1 & C2 & C3)]; [now left|].
        right. exists town. split; [exact C1|]. split; [now right|exact C3].
Qed.

(** The town that [CalcClosestTownFromTile] gives is a town of the pool at
    the least Manhattan distance from the tile. *)
Lemma CalcClosestTownFromTile_nearest m pool tile0 town :
  CalcClosestTownFromTile m pool tile0 = Some town ->
  In town pool /\
  forall t, In t pool ->
            DistanceManhattan m tile0 (xy town)
            <= DistanceManhattan m tile0 (xy t).
Proof.
  unfold CalcClosestTownFromTile. intros H.
  destruct (CalcClosestTownFromTile_fold m tile0 pool UINT_MAX None)
    as (_ & B & C).
  cbn zeta in B, C.
  destruct C as [[C _]|(tw & C1 & C2 & C3)]; [congruence|].
  rewrite C1 in H. injection H as <-.
  split; [exact C2|]. intros t I. rewrite <- C3. now apply B.
Qed.

(** ** [PublicRoad_FoundEndNode] *)

Lemma FoundEndNode_loop_cons pool m child node parent :
  PublicRoad_FoundEndNode_loop pool m child (node :: parent) =
  m' <- PublicRoad_FoundEndNode_step pool m child node parent ;;
  PublicRoad_FoundEndNode_loop pool m' (Some node) parent.
Proof. reflexivity. Qed.

(** *** Maps of the same size have the same geometry *)

Lemma same_size_refl m : same_size m m.
Proof. split; reflexivity. Qed.

Lemma same_size_trans m1 m2 m3 :
  same_size m1 m2 -> same_size m2 m3 -> same_size m1 m3.
Proof. unfold same_size. intros [] []. split; congruence. Qed.

Lemma same_size_set_tile m t v : same_size m (set_tile m t v).
Proof. split; reflexivity. Qed.

Ltac same_geometry :=
  match goal with
  | H : same_size ?m ?m' |- _ =>
      destruct m, m'; unfold same_size in H; simpl in H;
      destruct H; subst; reflexivity
  end.

Lemma same_size_MapSize m m' : same_size m m' -> MapSize m' = MapSize m.
Proof. intros H. same_geometry. Qed.

Lemma same_size_DistanceManhattan m m' a b :
  same_size m m' -> DistanceManhattan m' a b = DistanceManhattan m a b.
Proof. intros H. same_geometry. Qed.

Lemma same_size_bits_towards m m' t n :
  same_size m m' -> bits_towards m' t n = bits_towards m t n.
Proof. intros H. same_geometry. Qed.

Lemma same_size_CalcClosestTownFromTile m m' pool t :
  same_size m m' ->
  CalcClosestTownFromTile m' pool t = CalcClosestTownFromTile m pool t.
Proof. intros H. same_geometry. Qed.

Lemma same_size_TileAddByDiagDir m m' t d :
  same_size m m' -> TileAddByDiagDir m' t d = TileAddByDiagDir m t d.
Proof. intros H. same_geometry. Qed.

Lemma same_size_planned_bits m m' path : forall child,
  same_size m m' -> planned_bits m' child path = planned_bits m child path.
Proof.
  induction path as [|node parent IH]; intros child H; simpl; [reflexivity|].
  unfold towards. rewrite !(same_size_bits_towards m m') by assumption.
  now rewrite IH.
Qed.

Lemma same_size_chain_adjacent m m' path : forall child,
  same_size m m' -> chain_adjacent m child path -> chain_adjacent m' child path.
Proof.
  induction path as [|node parent IH]; intros child H; simpl; [auto|].
  intros [A B]. split; [|now apply IH].
  destruct child; [|exact I].
  now rewrite (same_size_DistanceManhattan m m').
Qed.

(** *** The tile that the loop body writes *)

Lemma IsNormalRoadTile_iff m t :
  IsNormalRoadTile m t = true <-> is_normal_road (map_tiles m t).
Proof.
  unfold IsNormalRoadTile, IsTileType, IsNormalRoad, GetTileType,
    GetRoadTileType, is_normal_road.
  rewrite andb_true_iff, TileType_eqb_eq.
  destruct (road_tile_type (map_tiles m t)); intuition congruence.
Qed.

Lemma written_tile_normal o rb town :
  (tile_type o = MP_ROAD -> road_tile_type o = ROAD_TILE_NORMAL) ->
  is_normal_road (written_tile o rb town).
Proof.
  unfold written_tile, is_normal_road. intros H.
  destruct (TileType_eqb (tile_type o) MP_ROAD) eqn:E; simpl; [|auto].
  apply TileType_eqb_eq in E. auto.
Qed.

Lemma written_tile_road_bits o rb town :
  road_bits (written_tile o rb town) =
  if TileType_eqb (tile_type o) MP_ROAD then Z.lor (road_bits o) rb else rb.
Proof. unfold written_tile. now destruct (TileType_eqb _ _). Qed.

Lemma lor_absorb (a b : Z) : Z.lor a (Z.lor a b) = Z.lor a b.
Proof. now rewrite Z.lor_assoc, Z.lor_diag. Qed.

Lemma written_tile_le o rb town :
  (tile_type o = MP_ROAD -> road_tile_type o = ROAD_TILE_NORMAL) ->
  tile_le o (written_tile o rb town).
Proof.
  intros H N. split; [now apply written_tile_normal|].
  rewrite written_tile_road_bits.
  destruct N as [T _]. apply TileType_eqb_eq in T. rewrite T.
  apply lor_absorb.
Qed.

Lemma written_tile_contains o rb town :
  Z.lor rb (road_bits (written_tile o rb town)) =
  road_bits (written_tile o rb town).
Proof.
  rewrite written_tile_road_bits. destruct (TileType_eqb _ _).
  - now rewrite (Z.lor_comm (road_bits o)), lor_absorb.
  - apply Z.lor_diag.
Qed.

Lemma written_tile_saturated o rb town :
  is_normal_road o -> Z.lor rb (road_bits o) = road_bits o ->
  written_tile o rb town = o.
Proof.
  intros [T R] L. unfold written_tile.
  apply TileType_eqb_eq in T. rewrite T.
  rewrite Z.lor_comm, L. now destruct o.
Qed.

Lemma written_tile_spec m pool t o rb town :
  (tile_type o = MP_ROAD -> road_tile_type o = ROAD_TILE_NORMAL) ->
  CalcClosestTownFromTile m pool t = Some town ->
  materialized_spec o rb (CalcClosestTownFromTile m pool t)
                    (written_tile o rb (index town)).
Proof.
  intros H C. rewrite C. unfold materialized_spec, written_tile.
  destruct (TileType_eqb (tile_type o) MP_ROAD) eqn:E; simpl.
  - apply TileType_eqb_eq in E. repeat split; auto.
  - repeat split; auto.
Qed.

Lemma tile_le_refl o : tile_le o o.
Proof. intros N. split; [exact N|apply Z.lor_diag]. Qed.

Lemma tile_le_trans a b c : tile_le a b -> tile_le b c -> tile_le a c.
Proof.
  intros H1 H2 N. destruct (H1 N) as [Nb L1]. destruct (H2 Nb) as [Nc L2].
  split; [exact Nc|]. rewrite <- L2, Z.lor_assoc, L1. reflexivity.
Qed.

(** *** The loop body *)

Lemma FoundEndNode_step_Some pool m child node parent m' :
  PublicRoad_FoundEndNode_step pool m child node parent = Some m' ->
  exists town b1 b2,
    CalcClosestTownFromTile m pool (tile node) = Some town /\
    bits_towards m (tile node) child = Some b1 /\
    bits_towards m (tile node) (hd_error parent) = Some b2 /\
    ((child = None /\ parent = [] /\ m' = m) \/
     ((child <> None \/ parent <> []) /\
      tile node < MapSize m /\
      (tile_type (map_tiles m (tile node)) = MP_ROAD ->
       road_tile_type (map_tiles m (tile node)) = ROAD_TILE_NORMAL) /\
      m' = set_tile m (tile node)
             (written_tile (map_tiles m (tile node))
                           (Z.lor (Z.lor ROAD_NONE b1) b2) (index town)))).
Proof.
  unfold PublicRoad_FoundEndNode_step.
  destruct (CalcClosestTownFromTile m pool (tile node)) as [town|];
    [|discriminate].
  destruct (bits_towards m (tile node) child) as [b1|]; [|discriminate].
  destruct (bits_towards m (tile node) (hd_error parent)) as [b2|];
    [|discriminate].
  cbn [bind]. intros H. exists town, b1, b2.
  split; [reflexivity|]. split; [reflexivity|]. split; [reflexivity|].
  assert (W : (_ <- assert (tile node <? MapSize m) ;;
               if TileType_eqb (GetTileType m (tile node)) MP_ROAD
               then old <- GetRoadBits m (tile node) ROADTYPE_ROAD ;;
                    SetRoadBits m (tile node)
                      (Z.lor old (Z.lor (Z.lor ROAD_NONE b1) b2)) ROADTYPE_ROAD
               else Some (MakeRoadNormal m (tile node)
                            (Z.lor (Z.lor ROAD_NONE b1) b2) ROADTYPES_ROAD
                            (index town) OWNER_TOWN OWNER_NONE)) = Some m' ->
              tile node < MapSize m /\
              (tile_type (map_tiles m (tile node)) = MP_ROAD ->
               road_tile_type (map_tiles m (tile node)) = ROAD_TILE_NORMAL) /\
              m' = set_tile m (tile node)
                     (written_tile (map_tiles m (tile node))
                        (Z.lor (Z.lor ROAD_NONE b1) b2) (index town))).
  { clear H. destruct (Z.ltb_spec (tile node) (MapSize m)); [|discriminate].
    cbn [assert bind]. unfold written_tile, GetTileType.
    destruct (TileType_eqb (tile_type (map_tiles m (tile node))) MP_ROAD) eqn:E.
    - unfold GetRoadBits, SetRoadBits.
      destruct (IsNormalRoadTile m (tile node)) eqn:N; [|discriminate].
      cbn [assert bind]. intros [= <-].
      apply IsNormalRoadTile_iff in N as [_ N]. auto.
    - intros [= <-]. split; [assumption|]. split; [|reflexivity].
      intros T. apply TileType_eqb_eq in T. congruence. }
  destruct child as [c|].
  - right. split; [left; discriminate|]. now apply W.
  - destruct parent as [|p parent].
    + left. injection H as <-. auto.
    + right. split; [right; discriminate|]. now apply W.
Qed.

Lemma map_tiles_set_tile m t v t' :
  map_tiles (set_tile m t v) t' = if t' =? t then v else map_tiles m t'.
Proof. reflexivity. Qed.

Lemma FoundEndNode_step_total pool m child node parent town b1 b2 :
  CalcClosestTownFromTile m pool (tile node) = Some town ->
  bits_towards m (tile node) child = Some b1 ->
  bits_towards m (tile node) (hd_error parent) = Some b2 ->
  tile node < MapSize m ->
  (tile_type (map_tiles m (tile node)) = MP_ROAD ->
   road_tile_type (map_tiles m (tile node)) = ROAD_TILE_NORMAL) ->
  child <> None \/ parent <> [] ->
  PublicRoad_FoundEndNode_step pool m child node parent =
  Some (set_tile m (tile node)
          (written_tile (map_tiles m (tile node))
                        (Z.lor (Z.lor ROAD_NONE b1) b2) (index town))).
Proof.
  intros C B1 B2 L N W. unfold PublicRoad_FoundEndNode_step.
  rewrite C, B1, B2. cbn [bind].
  assert (X : (_ <- assert (tile node <? MapSize m) ;;
               if TileType_eqb (GetTileType m (tile node)) MP_ROAD
               then old <- GetRoadBits m (tile node) ROADTYPE_ROAD ;;
                    SetRoadBits m (tile node)
                      (Z.lor old (Z.lor (Z.lor ROAD_NONE b1) b2)) ROADTYPE_ROAD
               else Some (MakeRoadNormal m (tile node)
                            (Z.lor (Z.lor ROAD_NONE b1) b2) ROADTYPES_ROAD
                            (index town) OWNER_TOWN OWNER_NONE)) =
              Some (set_tile m (tile node)
                      (written_tile (map_tiles m (tile node))
                         (Z.lor (Z.lor ROAD_NONE b1) b2) (index town)))).
  { apply Z.ltb_lt in L. rewrite L. cbn [assert bind].
    unfold written_tile, GetTileType.
    destruct (TileType_eqb (tile_type (map_tiles m (tile node))) MP_ROAD) eqn:E;
      [|reflexivity].
    unfold GetRoadBits, SetRoadBits.
    assert (R : IsNormalRoadTile m (tile node) = true).
    { apply IsNormalRoadTile_iff. apply TileType_eqb_eq in E.
      split; auto. }
    rewrite R. reflexivity. }
  destruct child as [c|]; [exact X|].
  destruct parent as [|p parent]; [|exact X].
  destruct W; congruence.
Qed.

Lemma FoundEndNode_step_effect pool m child node parent m' :
  PublicRoad_FoundEndNode_step pool m child node parent = Some m' ->
  same_size m m' /\
  (forall t, t <> tile node -> map_tiles m' t = map_tiles m t) /\
  (forall t, tile_le (map_tiles m t) (map_tiles m' t)).
Proof.
  intros H. apply FoundEndNode_step_Some in H
    as (town & b1 & b2 & _ & _ & _ & [(_ & _ & ->)|(_ & _ & N & ->)]).
  - split; [apply same_size_refl|]. split; [reflexivity|].
    intros t. apply tile_le_refl.
  - split; [apply same_size_set_tile|]. split.
    + intros t D. rewrite map_tiles_set_tile.
      apply Z.eqb_neq in D. now rewrite D.
    + intros t. rewrite map_tiles_set_tile.
      destruct (Z.eqb_spec t (tile node)) as [->|D].
      * now apply written_tile_le.
      * apply tile_le_refl.
Qed.

(** *** The loop: size, frame and growth *)

Lemma FoundEndNode_loop_effect pool path : forall m child m',
  PublicRoad_FoundEndNode_loop pool m child path = Some m' ->
  same_size m m' /\
  (forall t, ~ In t (map tile path) -> map_tiles m' t = map_tiles m t) /\
  (forall t, tile_le (map_tiles m t) (map_tiles m' t)).
Proof.
  induction path as [|node parent IH]; intros m child m'.
  - simpl. intros [= <-]. split; [apply same_size_refl|].
    split; [reflexivity|]. intros t. apply tile_le_refl.
  - rewrite FoundEndNode_loop_cons.
    destruct (PublicRoad_FoundEndNode_step pool m child node parent)
      as [m1|] eqn:B;
      [|discriminate].
    cbn [bind]. intros L.
    apply FoundEndNode_step_effect in B as (S1 & F1 & G1).
    apply IH in L as (S2 & F2 & G2).
    split; [eapply same_size_trans; eassumption|]. split.
    + intros t N. simpl in N. rewrite F2, F1; auto.
    + intros t. eapply tile_le_trans; eauto.
Qed.

Lemma adjacent_DiagdirBetweenTiles m a b :
  DistanceManhattan m a b = 1 ->
  exists d, DiagdirBetweenTiles m a b = Some d.
Proof.
  unfold DistanceManhattan, DiagdirBetweenTiles. rewrite !Delta_spec.
  intros H.
  destruct (Z.eqb_spec (TileX m b - TileX m a) 0);
    destruct (Z.eqb_spec (TileY m b - TileY m a) 0); simpl; eauto; lia.
Qed.

Lemma adjacent_bits_towards m t n :
  match n with
  | Some c => DistanceManhattan m t (tile c) = 1
  | None => True
  end ->
  exists b, bits_towards m t n = Some b.
Proof.
  destruct n as [c|]; simpl; [|eauto].
  intros H. destruct (adjacent_DiagdirBetweenTiles m t (tile c) H) as [d ->].
  simpl. eauto.
Qed.

(** *** The loop returns on a materializable chain *)

(** The nodes of a chain built by the expansion lie on adjacent tiles. *)
Lemma expansion_chain_adjacent m path : forall child,
  match child, path with
  | Some c, node :: _ => expands_to m node c
  | _, _ => True
  end ->
  expansion_chain m path -> chain_adjacent m child path.
Proof.
  induction path as [|node parent IH]; intros child C E; [exact I|].
  cbn [chain_adjacent]. split.
  - destruct child as [c|]; [|exact I]. now apply expands_to_adjacent.
  - apply IH.
    + destruct parent as [|p parent]; [exact I|]. now destruct E.
    + destruct parent as [|p parent]; [exact I|]. now destruct E.
Qed.

Lemma FoundEndNode_loop_total pool path : forall m child,
  Forall (fun n => CalcClosestTownFromTile m pool (tile n) <> None) path ->
  Forall (fun n => tile n < MapSize m) path ->
  chain_adjacent m child path ->
  Forall (fun n => tile_type (map_tiles m (tile n)) = MP_ROAD ->
                   road_tile_type (map_tiles m (tile n)) = ROAD_TILE_NORMAL)
         path ->
  exists m', PublicRoad_FoundEndNode_loop pool m child path = Some m'.
Proof.
  induction path as [|node parent IH]; intros m child HC HL HA HN.
  - simpl. eauto.
  - rewrite FoundEndNode_loop_cons.
    inversion HC as [|? ? C HC']; subst.
    inversion HL as [|? ? L HL']; subst.
    inversion HN as [|? ? N HN']; subst.
    destruct HA as [A HA'].
    destruct (CalcClosestTownFromTile m pool (tile node)) as [town|] eqn:EC;
      [clear C|congruence].
    destruct (adjacent_bits_towards m (tile node) child A) as [b1 B1].
    assert (A2 : match hd_error parent with
                 | Some c => DistanceManhattan m (tile node) (tile c) = 1
                 | None => True
                 end).
    { destruct parent as [|p parent]; simpl; [exact I|].
      destruct HA' as [A2 _]. simpl in A2.
      now rewrite DistanceManhattan_sym. }
    destruct (adjacent_bits_towards m (tile node) _ A2) as [b2 B2].
    assert (B : exists m1, PublicRoad_FoundEndNode_step pool m child node
                             parent = Some m1).
    { destruct child as [c|].
      - eexists. eapply FoundEndNode_step_total; eauto. left; discriminate.
      - destruct parent as [|p parent].
        + exists m. unfold PublicRoad_FoundEndNode_step.
          rewrite EC, B1, B2. reflexivity.
        + eexists. eapply FoundEndNode_step_total; eauto. right; discriminate. }
    destruct B as [m1 B]. rewrite B. cbn [bind].
    pose proof (FoundEndNode_step_effect _ _ _ _ _ _ B) as (S1 & F1 & G1).
    apply IH.
    + eapply Forall_impl; [|exact HC']. intros n.
      now rewrite (same_size_CalcClosestTownFromTile m m1).
    + eapply Forall_impl; [|exact HL']. intros n.
      now rewrite (same_size_MapSize m m1).
    + now apply (same_size_chain_adjacent m m1).
    + rewrite Forall_forall in HN' |- *. intros n I T.
      destruct (Z.eq_dec (tile n) (tile node)) as [E|D].
      * rewrite E in T |- *. clear IH.
        apply FoundEndNode_step_Some in B
          as (? & ? & ? & _ & _ & _ & [(_ & _ & ->)|(_ & _ & N' & ->)]).
        -- auto.
        -- rewrite map_tiles_set_tile, Z.eqb_refl.
           now apply written_tile_normal.
      * rewrite F1 in T |- * by assumption. now apply HN'.
Qed.

(** *** After a run the chain is saturated, and a saturated chain is
    materialized without a change *)

Lemma lor_le_trans (a b c : Z) :
  Z.lor a b = b -> Z.lor b c = c -> Z.lor a c = c.
Proof. intros H1 H2. now rewrite <- H2, Z.lor_assoc, H1. Qed.

Lemma saturated_mono pool path : forall m m' child,
  same_size m m' ->
  (forall t, tile_le (map_tiles m t) (map_tiles m' t)) ->
  saturated pool m child path -> saturated pool m' child path.
Proof.
  induction path as [|node parent IH]; intros m m' child S G; simpl; [auto|].
  intros [(town & b1 & b2 & C & B1 & B2 & W) R].
  split; [|eapply IH; eassumption].
  exists town, b1, b2.
  rewrite (same_size_CalcClosestTownFromTile m m'),
    !(same_size_bits_towards m m'), (same_size_MapSize m m') by assumption.
  repeat (split; [assumption|]).
  destruct W as [W|(L & N & X)]; [now left|right].
  destruct (G (tile node) N) as [N' X'].
  repeat (split; [assumption|]).
  eapply lor_le_trans; eassumption.
Qed.

Lemma FoundEndNode_loop_saturated pool path : forall m child m',
  PublicRoad_FoundEndNode_loop pool m child path = Some m' ->
  saturated pool m' child path.
Proof.
  induction path as [|node parent IH]; intros m child m'; [simpl; auto|].
  rewrite FoundEndNode_loop_cons.
  destruct (PublicRoad_FoundEndNode_step pool m child node parent)
    as [m1|] eqn:B;
    [|discriminate].
  cbn [bind]. intros L. simpl. split; [|eapply IH; eassumption].
  pose proof (FoundEndNode_step_effect _ _ _ _ _ _ B) as (S1 & _ & _).
  pose proof (FoundEndNode_loop_effect _ _ _ _ _ L) as (S2 & _ & G2).
  pose proof (same_size_trans _ _ _ S1 S2) as S.
  apply FoundEndNode_step_Some in B as (town & b1 & b2 & C & B1 & B2 & W).
  exists town, b1, b2.
  rewrite (same_size_CalcClosestTownFromTile m m'),
    !(same_size_bits_towards m m'), (same_size_MapSize m m') by assumption.
  repeat (split; [assumption|]).
  destruct W as [(-> & -> & _)|(_ & Lt & N & ->)]; [now left|right].
  split; [assumption|].
  specialize (G2 (tile node)).
  rewrite map_tiles_set_tile, Z.eqb_refl in G2.
  destruct G2 as [N' X']; [now apply written_tile_normal|].
  split; [assumption|].
  eapply lor_le_trans; [apply written_tile_contains|exact X'].
Qed.

Lemma map_eq_refl m : map_eq m m.
Proof. split; [apply same_size_refl|reflexivity]. Qed.

Lemma map_eq_trans m1 m2 m3 : map_eq m1 m2 -> map_eq m2 m3 -> map_eq m1 m3.
Proof.
  intros [S1 E1] [S2 E2]. split; [eapply same_size_trans; eassumption|].
  intros t. now rewrite E2, E1.
Qed.

Lemma FoundEndNode_loop_noop pool path : forall m child,
  saturated pool m child path ->
  exists m', PublicRoad_FoundEndNode_loop pool m child path = Some m' /\
             map_eq m m'.
Proof.
  induction path as [|node parent IH]; intros m child.
  - simpl. intros _. exists m. split; [reflexivity|apply map_eq_refl].
  - simpl saturated. intros [(town & b1 & b2 & C & B1 & B2 & W) R].
    rewrite FoundEndNode_loop_cons.
    assert (B : exists m1, PublicRoad_FoundEndNode_step pool m child node
                             parent = Some m1
                           /\ map_eq m m1).
    { destruct W as [(-> & ->)|(L & N & X)].
      - exists m. split; [|apply map_eq_refl].
        unfold PublicRoad_FoundEndNode_step. rewrite C, B1, B2. reflexivity.
      - destruct child as [c|].
        + eexists. split.
          * eapply FoundEndNode_step_total; eauto; [now destruct N|].
            left; discriminate.
          * split; [apply same_size_set_tile|]. intros t.
            rewrite map_tiles_set_tile.
            destruct (Z.eqb_spec t (tile node)) as [->|]; [|reflexivity].
            now apply written_tile_saturated.
        + destruct parent as [|p parent].
          * exists m. split; [|apply map_eq_refl].
            unfold PublicRoad_FoundEndNode_step. rewrite C, B1, B2. reflexivity.
          * eexists. split.
            -- eapply FoundEndNode_step_total; eauto; [now destruct N|].
               right; discriminate.
            -- split; [apply same_size_set_tile|]. intros t.
               rewrite map_tiles_set_tile.
               destruct (Z.eqb_spec t (tile node)) as [->|]; [|reflexivity].
               now apply written_tile_saturated. }
    destruct B as (m1 & -> & E1). cbn [bind].
    destruct (IH m1 (Some node)) as (m' & L & E2).
    { destruct E1 as [S1 T1]. eapply saturated_mono; [exact S1| |exact R].
      intros t. rewrite T1. apply tile_le_refl. }
    exists m'. split; [exact L|]. eapply map_eq_trans; eassumption.
Qed.

(** *** A tile that occurs once is written once *)

Lemma planned_bits_tiles m path : forall child t rb,
  In (t, rb) (planned_bits m child path) -> In t (map tile path).
Proof.
  induction path as [|node parent IH]; simpl; intros child t rb; [auto|].
  intros [[= <- _]|H]; eauto.
Qed.

Lemma towards_Some m t n b : bits_towards m t n = Some b -> towards m t n = b.
Proof. unfold towards. now intros ->. Qed.

Lemma FoundEndNode_loop_exact pool path : forall m child m',
  PublicRoad_FoundEndNode_loop pool m child path = Some m' ->
  NoDup (map tile path) ->
  child <> None \/ (2 <= length path)%nat ->
  forall t rb,
    In (t, rb) (planned_bits m child path) ->
    exists town,
      CalcClosestTownFromTile m pool t = Some town /\
      (tile_type (map_tiles m t) = MP_ROAD ->
       road_tile_type (map_tiles m t) = ROAD_TILE_NORMAL) /\
      map_tiles m' t = written_tile (map_tiles m t) rb (index town).
Proof.
  induction path as [|node parent IH]; intros m child m'; [simpl; tauto|].
  rewrite FoundEndNode_loop_cons.
  destruct (PublicRoad_FoundEndNode_step pool m child node parent)
    as [m1|] eqn:B;
    [|discriminate].
  cbn [bind]. intros L ND W t rb I.
  simpl in ND. inversion ND as [|? ? NI ND']; subst.
  pose proof (FoundEndNode_step_effect _ _ _ _ _ _ B) as (S1 & F1 & _).
  pose proof (FoundEndNode_loop_effect _ _ _ _ _ L) as (_ & F2 & _).
  cbn [planned_bits In] in I. destruct I as [[= <- <-]|I].
  - apply FoundEndNode_step_Some in B as (town & b1 & b2 & C & B1 & B2 & X).
    exists town. split; [exact C|].
    destruct X as [(-> & -> & _)|(_ & _ & N & ->)].
    + destruct W as [W|W]; [congruence|simpl in W; lia].
    + split; [exact N|].
      rewrite F2 by assumption.
      rewrite map_tiles_set_tile, Z.eqb_refl.
      now rewrite (towards_Some _ _ _ _ B1), (towards_Some _ _ _ _ B2).
  - rewrite <- (same_size_planned_bits m m1) in I by assumption.
    assert (D : t <> tile node).
    { intros ->. apply NI. eapply planned_bits_tiles; eassumption. }
    assert (W' : Some node <> None \/ (2 <= length parent)%nat)
      by (left; discriminate).
    destruct (IH m1 (Some node) m' L ND' W' t rb I) as (town & C & N & E).
    rewrite (same_size_CalcClosestTownFromTile m m1) in C by assumption.
    rewrite F1 in N, E by assumption.
    exists town. auto.
Qed.

Lemma materializable_tiles m pool path :
  materializable m pool path ->
  Forall (fun n => tile_type (map_tiles m (tile n)) = MP_ROAD ->
                   road_tile_type (map_tiles m (tile n)) = ROAD_TILE_NORMAL)
         path.
Proof.
  intros (_ & _ & _ & N & _). eapply Forall_impl; [|exact N].
  intros n H T. specialize (H T).
  unfold IsNormalRoad, GetRoadTileType in H.
  now destruct (road_tile_type (map_tiles m (tile n))).
Qed.

Lemma GetRoadBits_Some m t rt b :
  GetRoadBits m t rt = Some b <->
  is_normal_road (map_tiles m t) /\
  b = match rt with
      | ROADTYPE_ROAD => road_bits (map_tiles m t)
      | ROADTYPE_TRAM => tram_bits (map_tiles m t)
      end.
Proof.
  unfold GetRoadBits. rewrite <- IsNormalRoadTile_iff.
  destruct (IsNormalRoadTile m t); simpl; split.
  - intros [= <-]. auto.
  - intros [_ ->]. reflexivity.
  - discriminate.
  - intros [? _]. discriminate.
Qed.

(** X23.  On a materializable chain (every tile has a closest town and is
    on the map, consecutive tiles are adjacent, the road tiles of the chain
    are normal road tiles, no tile occurs twice)
    [PublicRoad_FoundEndNode] returns a map;
    a second run on that map returns a map with the same tiles; a road-bit
    set that exists before the first run loses no bit; when the chain has
    two nodes or more, the tile of every node is afterwards a normal road
    tile: on a road tile the computed bits are ORed into the existing set,
    any other tile becomes a plain road tile with exactly the computed
    bits, of the closest town, owned by the town, without a tram owner; and
    the tiles off the chain are left as they were. *)
Theorem PublicRoad_FoundEndNode_idempotent (pool : list Town) (m : Map)
  (path : PathNode) :
  materializable m pool path ->
  exists m1 : Map,
    PublicRoad_FoundEndNode pool m path = Some m1 /\
    (exists m2 : Map,
        PublicRoad_FoundEndNode pool m1 path = Some m2 /\
        forall t, map_tiles m2 t = map_tiles m1 t) /\
    (forall t old,
        GetRoadBits m t ROADTYPE_ROAD = Some old ->
        exists new,
          GetRoadBits m1 t ROADTYPE_ROAD = Some new /\
          forall i, Z.testbit old i = true -> Z.testbit new i = true) /\
    ((2 <= length path)%nat ->
     forall t rb,
       In (t, rb) (planned_bits m None path) ->
       materialized_spec (map_tiles m t) rb
                         (CalcClosestTownFromTile m pool t)
                         (map_tiles m1 t)) /\
    (forall t, ~ In t (map tile path) -> map_tiles m1 t = map_tiles m t).
Proof.
  intros M. pose proof (materializable_tiles _ _ _ M) as N.
  destruct M as (C & L & A & _ & ND).
  destruct (FoundEndNode_loop_total pool path m None C L A N) as [m1 R].
  exists m1. split; [exact R|].
  pose proof (FoundEndNode_loop_effect _ _ _ _ _ R) as (S & F & G).
  split; [|split; [|split]].
  - destruct (FoundEndNode_loop_noop pool path m1 None) as (m2 & R2 & _ & E).
    { eapply FoundEndNode_loop_saturated; exact R. }
    exists m2. split; [exact R2|exact E].
  - intros t old O. apply GetRoadBits_Some in O as [NR ->].
    destruct (G t NR) as [NR1 X].
    exists (road_bits (map_tiles m1 t)). split.
    + apply GetRoadBits_Some. auto.
    + intros i T. rewrite <- X, Z.lor_spec, T. reflexivity.
  - intros Len t rb I.
    destruct (FoundEndNode_loop_exact pool path m None m1 R ND (or_intror Len)
                t rb I) as (town & Ct & Nt & ->).
    now apply written_tile_spec.
  - exact F.
Qed.

(** *** Where the bits of a materialized tile come from *)

Lemma FoundEndNode_loop_upper pool path : forall m child m',
  PublicRoad_FoundEndNode_loop pool m child path = Some m' ->
  forall t d,
    is_normal_road (map_tiles m' t) ->
    has_road_bit (road_bits (map_tiles m' t)) d = true ->
    (is_normal_road (map_tiles m t) /\
     has_road_bit (road_bits (map_tiles m t)) d = true) \/
    exists rb, In (t, rb) (planned_bits m child path) /\
               has_road_bit rb d = true.
Proof.
  induction path as [|node parent IH]; intros m child m'.
  - simpl. intros [= <-]. auto.
  - rewrite FoundEndNode_loop_cons.
    destruct (PublicRoad_FoundEndNode_step pool m child node parent)
      as [m1|] eqn:B;
      [|discriminate].
    cbn [bind]. intros L t d N H.
    pose proof (FoundEndNode_step_effect _ _ _ _ _ _ B) as (S1 & F1 & _).
    destruct (IH _ _ _ L t d N H) as [[N1 H1]|(rb & I & Hrb)].
    + apply FoundEndNode_step_Some in B
        as (town & b1 & b2 & C & B1 & B2 & [(_ & _ & ->)|(_ & _ & Nt & ->)]);
        [now left|].
      rewrite map_tiles_set_tile in N1, H1.
      destruct (Z.eqb_spec t (tile node)) as [->|D]; [|now left].
      rewrite written_tile_road_bits in H1.
      assert (R : has_road_bit (Z.lor (Z.lor ROAD_NONE b1) b2) d = true ->
                  exists rb, In (tile node, rb)
                                (planned_bits m child (node :: parent)) /\
                             has_road_bit rb d = true).
      { intros X. eexists. split; [left; reflexivity|].
        now rewrite (towards_Some _ _ _ _ B1), (towards_Some _ _ _ _ B2). }
      destruct (TileType_eqb (tile_type (map_tiles m (tile node))) MP_ROAD)
        eqn:E; [|right; now apply R].
      rewrite has_road_bit_lor in H1. apply orb_true_iff in H1 as [H1|H1];
        [|right; now apply R].
      left. apply TileType_eqb_eq in E. split; [split|]; auto.
    + right. exists rb. split; [|exact Hrb].
      right. now rewrite <- (same_size_planned_bits m m1).
Qed.

Lemma has_road_bit_towards m t n d :
  has_road_bit (towards m t n) d = true ->
  exists c, n = Some c /\ DiagdirBetweenTiles m t (tile c) = Some d.
Proof.
  unfold towards, bits_towards.
  destruct n as [c|]; [|destruct d; discriminate].
  destruct (DiagdirBetweenTiles m t (tile c)) as [e|] eqn:E; cbn [bind];
    [|destruct d; discriminate].
  intros H. apply has_road_bit_DiagDir in H. subst e.
  exists c. split; [reflexivity|exact E].
Qed.

Lemma planned_bits_point_into_chain m path : forall child t rb d,
  chain_adjacent m child path ->
  In (t, rb) (planned_bits m child path) ->
  has_road_bit rb d = true ->
  exists c, (child = Some c \/ In c path) /\
            DistanceManhattan m t (tile c) = 1 /\
            DiagdirBetweenTiles m t (tile c) = Some d.
Proof.
  induction path as [|node parent IH]; intros child t rb d; [simpl; tauto|].
  cbn [planned_bits chain_adjacent In]. intros [A A'] I H.
  destruct I as [I|I].
  - injection I as <- <-. rewrite !has_road_bit_lor in H.
    apply orb_true_iff in H as [H|H].
    + apply has_road_bit_towards in H as (c & -> & D). eauto.
    + apply has_road_bit_towards in H as (c & P & D).
      destruct parent as [|p parent]; [discriminate|].
      simpl in P. assert (Ec : c = p) by congruence.
      rewrite Ec in D. clear Ec P. destruct A' as [A' _].
      exists p. split; [right; right; now left|]. split; [|exact D].
      now rewrite DistanceManhattan_sym.
  - destruct (IH _ _ _ _ A' I H) as (c & [Ec|In'] & D & E);
      exists c; (split; [|auto]); right; [left; congruence|now right].
Qed.

(** *** Geometry: the neighbour in the direction between adjacent tiles *)

Lemma adjacent_offset m a b d :
  DistanceManhattan m a b = 1 ->
  DiagdirBetweenTiles m a b = Some d ->
  b = a + TileOffsByDiagDir m d.
Proof.
  unfold DistanceManhattan, DiagdirBetweenTiles. rewrite !Delta_spec.
  intros D E.
  rewrite (tile_decompose m a) at 1. rewrite (tile_decompose m b) at 1.
  destruct (Z.eqb_spec (TileX m b - TileX m a) 0) as [X|X];
    destruct (Z.eqb_spec (TileY m b - TileY m a) 0) as [Y|Y];
    simpl in E; try discriminate.
  - destruct (Z.ltb_spec (TileY m b - TileY m a) 0); injection E as <-;
      cbv [TileOffsByDiagDir tileoffs_by_diagdir].
    + replace (TileY m b) with (TileY m a - 1) by lia. lia.
    + replace (TileY m b) with (TileY m a + 1) by lia. lia.
  - destruct (Z.ltb_spec (TileX m b - TileX m a) 0); injection E as <-;
      cbv [TileOffsByDiagDir tileoffs_by_diagdir].
    + replace (TileY m b) with (TileY m a) by lia. lia.
    + replace (TileY m b) with (TileY m a) by lia. lia.
Qed.

Lemma adjacent_TileAddByDiagDir m a b d :
  0 <= b < 2 ^ 32 ->
  DistanceManhattan m a b = 1 ->
  DiagdirBetweenTiles m a b = Some d ->
  TileAddByDiagDir m a d = b.
Proof.
  intros R D E. unfold TileAddByDiagDir, TILE_ADD, uint32.
  rewrite <- (adjacent_offset m a b d D E). now apply Z.mod_small.
Qed.

(** *** Connectivity after a run *)

Lemma connective_normal_road m t d :
  TileAddByDiagDir m t d < MapSize m ->
  is_normal_road (map_tiles m (TileAddByDiagDir m t d)) ->
  connective m t d = true.
Proof.
  intros L N. unfold connective.
  assert (R : IsNormalRoadTile m (TileAddByDiagDir m t d) = true)
    by now apply IsNormalRoadTile_iff.
  destruct N as [T _].
  unfold IsValidTile, IsTileType, GetTileType.
  apply Z.ltb_lt in L. rewrite L, T, R. reflexivity.
Qed.

Lemma connective_ext m m' t d :
  same_size m m' ->
  map_tiles m' (TileAddByDiagDir m t d) = map_tiles m (TileAddByDiagDir m t d) ->
  connective m' t d = connective m t d.
Proof.
  intros S E.
  unfold connective, IsValidTile, IsNormalRoadTile, IsNormalRoad,
    GetRoadTileType, IsPossibleCrossing, IsTileType, GetTileType,
    GetAnyRoadBits, GetRailTileType, GetTrackBits, GetFoundationSlope, IsWater.
  rewrite (same_size_TileAddByDiagDir m m'), (same_size_MapSize m m'), E
    by assumption.
  reflexivity.
Qed.

Lemma saturated_covers pool m path : forall child,
  saturated pool m child path ->
  child <> None \/ (2 <= length path)%nat ->
  forall n, In n path ->
            tile n < MapSize m /\ is_normal_road (map_tiles m (tile n)).
Proof.
  induction path as [|node parent IH]; intros child; [simpl; tauto|].
  simpl saturated. intros [(town & b1 & b2 & _ & _ & _ & W) R] X n I.
  destruct I as [<-|I].
  - destruct W as [[-> ->]|(L & N & _)]; [|auto].
    destruct X as [X|X]; [congruence|simpl in X; lia].
  - eapply IH; [exact R|left; discriminate|exact I].
Qed.

Lemma FoundEndNode_unchanged_or_covered pool m path m1 :
  PublicRoad_FoundEndNode pool m path = Some m1 ->
  m1 = m \/
  forall n, In n path ->
            tile n < MapSize m1 /\ is_normal_road (map_tiles m1 (tile n)).
Proof.
  intros R. destruct path as [|a [|b path]].
  - left. now injection R as <-.
  - left. unfold PublicRoad_FoundEndNode in R.
    rewrite FoundEndNode_loop_cons in R.
    destruct (PublicRoad_FoundEndNode_step pool m None a []) as [m'|] eqn:B;
      [|discriminate].
    simpl in R. injection R as <-.
    apply FoundEndNode_step_Some in B
      as (? & ? & ? & _ & _ & _ & [(_ & _ & ->)|([X|X] & _)]); congruence.
  - right. eapply saturated_covers.
    + eapply FoundEndNode_loop_saturated. exact R.
    + right. simpl. lia.
Qed.

(** C4, as the code has it.  After [PublicRoad_FoundEndNode] has
    materialized a chain of adjacent tiles, every bit of a road-bit set
    points at a connective neighbour, unless the bit was on the tile before
    the run and pointed at a neighbour that was not connective then.  So the
    bits that materialization adds point at connective neighbours, a bit
    that pointed at one still does, and the invariant holds after the run
    when it held before it. *)
Theorem PublicRoad_FoundEndNode_keeps_connectivity (pool : list Town)
  (m m1 : Map) (path : PathNode) :
  chain_adjacent m None path ->
  Forall (fun n => 0 <= tile n < 2 ^ 32) path ->
  PublicRoad_FoundEndNode pool m path = Some m1 ->
  (forall (t : TileIndex) (rb : RoadBits) (d : DiagDirection),
      GetRoadBits m1 t ROADTYPE_ROAD = Some rb ->
      has_road_bit rb d = true ->
      connective m1 t d = true \/
      exists old, GetRoadBits m t ROADTYPE_ROAD = Some old /\
                  has_road_bit old d = true /\
                  connective m t d = false) /\
  (no_dangling_stub m -> no_dangling_stub m1).
Proof.
  intros A Rg R.
  assert (Main : forall t rb d,
             GetRoadBits m1 t ROADTYPE_ROAD = Some rb ->
             has_road_bit rb d = true ->
             connective m1 t d = true \/
             exists old, GetRoadBits m t ROADTYPE_ROAD = Some old /\
                         has_road_bit old d = true /\
                         connective m t d = false).
  { intros t rb d G H. apply GetRoadBits_Some in G as [N ->].
    pose proof (FoundEndNode_loop_effect _ _ _ _ _ R) as (S & F & _).
    pose proof (FoundEndNode_unchanged_or_covered _ _ _ _ R) as Cov.
    destruct (FoundEndNode_loop_upper _ _ _ _ _ R t d N H)
      as [[N0 H0]|(pl & I & Hpl)].
    - (* the bit was there before the run *)
      destruct (connective m t d) eqn:C.
      + left. destruct Cov as [->|Cov]; [exact C|].
        destruct (in_dec Z.eq_dec (TileAddByDiagDir m t d) (map tile path))
          as [I|NI].
        * apply in_map_iff in I as (c & Ec & Ic).
          destruct (Cov c Ic) as [Lc Nc]. rewrite Ec in Lc, Nc.
          rewrite <- (same_size_TileAddByDiagDir m m1) in Lc, Nc by assumption.
          now apply connective_normal_road.
        * rewrite <- C. apply connective_ext; auto.
      + right. exists (road_bits (map_tiles m t)).
        split; [now apply GetRoadBits_Some|auto].
    - (* the bit was computed for a node of the chain *)
      left.
      destruct (planned_bits_point_into_chain _ _ _ _ _ _ A I Hpl)
        as (c & [Ec|Ic] & D & E); [discriminate|].
      assert (Rc : 0 <= tile c < 2 ^ 32).
      { rewrite Forall_forall in Rg. now apply Rg. }
      pose proof (adjacent_TileAddByDiagDir m t (tile c) d Rc D E) as T.
      destruct Cov as [->|Cov].
      + (* a chain of one node computes no bit *)
        destruct path as [|a [|b path]]; [destruct Ic| |].
        * cbn [planned_bits In] in I. destruct I as [I|[]].
          injection I as _ <-. destruct d; discriminate.
        * apply FoundEndNode_loop_saturated in R.
          destruct (saturated_covers _ _ _ _ R
                      (or_intror (le_n_S _ _ (le_n_S _ _ (Nat.le_0_l _)))) c Ic)
            as [Lc Nc].
          rewrite <- T in Lc, Nc. now apply connective_normal_road.
      + destruct (Cov c Ic) as [Lc Nc].
        rewrite <- T, <- (same_size_TileAddByDiagDir m m1) in Lc, Nc
          by assumption.
        now apply connective_normal_road. }
  split; [exact Main|].
  intros Inv t rb d G H.
  destruct (Main t rb d G H) as [C|(old & G0 & H0 & C0)]; [exact C|].
  rewrite (Inv t old d G0 H0) in C0. discriminate.
Qed.

(** ** Road tiles that are not normal road tiles *)

Lemma FoundEndNode_loop_not_normal pool path : forall m child n,
  In n path ->
  tile_type (map_tiles m (tile n)) = MP_ROAD ->
  road_tile_type (map_tiles m (tile n)) <> ROAD_TILE_NORMAL ->
  child <> None \/ (2 <= length path)%nat ->
  PublicRoad_FoundEndNode_loop pool m child path = None.
Proof.
  induction path as [|node parent IH]; intros m child n I T R L; [destruct I|].
  rewrite FoundEndNode_loop_cons.
  destruct (PublicRoad_FoundEndNode_step pool m child node parent) as [m'|]
    eqn:St; [|reflexivity].
  cbn [bind].
  pose proof (FoundEndNode_step_effect _ _ _ _ _ _ St) as (_ & K & _).
  apply FoundEndNode_step_Some in St
    as (town & b1 & b2 & _ & _ & _ & [(C & P & _)|(_ & _ & N & _)]).
  - subst. destruct L as [L|L]; [congruence|simpl in L; lia].
  - destruct (Z.eq_dec (tile n) (tile node)) as [E|E].
    + rewrite E in T, R. exfalso. auto.
    + apply (IH m' (Some node) n).
      * destruct I as [<-|I]; [congruence|exact I].
      * rewrite K; assumption.
      * rewrite K; assumption.
      * left. discriminate.
Qed.

(** C3.  [PublicRoad_FoundEndNode] takes every tile of type [MP_ROAD] for a
    tile with a road-bit set, and [GetRoadBits] asserts a normal road tile:
    when a chain of two nodes or more has a node on a road tile that is not
    a normal road tile (a level crossing, a depot), the run stops at that
    assertion, at the latest on that tile, and returns no map, whereas the
    expansion gives such tiles like every other road tile. *)
Theorem PublicRoad_FoundEndNode_stops_off_normal_road (pool : list Town)
  (m : Map) (path : PathNode) (n : AyStarNode) :
  (2 <= length path)%nat ->
  In n path ->
  GetTileType m (tile n) = MP_ROAD ->
  IsNormalRoad m (tile n) = false ->
  PublicRoad_FoundEndNode pool m path = None.
Proof.
  intros L I T R. unfold PublicRoad_FoundEndNode.
  apply (FoundEndNode_loop_not_normal pool path m None n I T); [|auto].
  unfold IsNormalRoad, GetRoadTileType in R. intros E. rewrite E in R.
  discriminate.
Qed.

(* ===================================================================== *)
(** * Part IV: the properties on the small map *)
(* ===================================================================== *)

Lemma example_path_materializable :
  materializable example_map example_pool example_path.
Proof.
  unfold materializable, example_path. split; [|split; [|split; [|split]]].
  - repeat constructor; vm_compute; discriminate.
  - repeat constructor.
  - simpl. split; [exact I|]. split; [reflexivity|exact I].
  - repeat constructor; intros _; reflexivity.
  - repeat constructor; simpl; intuition discriminate.
Qed.

Lemma example_path_expansion : expansion_chain example_map example_path.
Proof.
  simpl. split; [|exact I].
  eexists. split; [vm_compute; reflexivity|]. simpl. auto.
Qed.

Lemma example_path_found :
  PublicRoad_FoundEndNode example_pool example_map example_path
  = Some example_after.
Proof. reflexivity. Qed.

Lemma CleanUpRoadBits_keeps_connective_witness :
  IsValidTile example_map 5 = true /\
  ((forall d : DiagDirection,
       has_road_bit (CleanUpRoadBits example_map 5 15) d = true <->
       has_road_bit 15 d = true /\
       Connective_spec example_map (TileAddByDiagDir example_map 5 d) d) /\
   (forall i : Z,
       Z.testbit (CleanUpRoadBits example_map 5 15) i = true ->
       Z.testbit 15 i = true)).
Proof.
  split; [reflexivity|].
  apply (CleanUpRoadBits_keeps_connective example_map 5 15). reflexivity.
Defined.

Lemma CleanUpRoadBits_invalid_tile_witness :
  IsValidTile example_map 7 = false /\
  CleanUpRoadBits example_map 7 15 = ROAD_NONE.
Proof.
  split; [reflexivity|].
  apply (CleanUpRoadBits_invalid_tile example_map 7 15). reflexivity.
Defined.

Lemma CanBuildRoadFromTo_adjacent_witness :
  DistanceManhattan example_map 5 6 = 1 /\
  exists r : bool,
    CanBuildRoadFromTo example_map 5 6 = Some r /\
    (r = true <-> edge_admissible_spec example_map 5 6).
Proof.
  split; [reflexivity|].
  apply (proj2 (CanBuildRoadFromTo_adjacent example_map 5 6)). reflexivity.
Defined.

Lemma PublicRoad_GetNeighbours_spec_witness :
  probes_adjacent example_map 5 /\
  exists l : list AyStarNode,
    PublicRoad_GetNeighbours example_map (mkAyStarNode 5 INVALID_TRACKDIR)
    = Some l /\
    (length l <= 4)%nat /\
    (forall t2 : TileIndex,
        In t2 (map tile l) <-> neighbour_spec example_map 5 t2).
Proof.
  assert (P : probes_adjacent example_map 5)
    by (intros d; destruct d; intros _; reflexivity).
  split; [exact P|].
  destruct (PublicRoad_GetNeighbours_spec example_map
              (mkAyStarNode 5 INVALID_TRACKDIR)) as [T S].
  destruct (proj1 T P) as [l E].
  exists l. split; [exact E|]. exact (S l E).
Defined.

Lemma PublicRoad_CalculateH_admissible_witness :
  buildable_path example_map (mkAyStarNode 5 INVALID_TRACKDIR)
                 [mkAyStarNode 6 INVALID_TRACKDIR]
                 (mkAyStarNode 6 INVALID_TRACKDIR) /\
  PublicRoad_CalculateH example_map 6 (mkAyStarNode 5 INVALID_TRACKDIR) <= 1.
Proof.
  assert (P : buildable_path example_map (mkAyStarNode 5 INVALID_TRACKDIR)
                [mkAyStarNode 6 INVALID_TRACKDIR]
                (mkAyStarNode 6 INVALID_TRACKDIR)).
  { econstructor; [|constructor].
    eexists. split; [vm_compute; reflexivity|]. simpl. auto. }
  split; [exact P|].
  exact (proj1 (PublicRoad_CalculateH_admissible example_map _ _ _ P)).
Defined.

Lemma PublicRoad_FoundEndNode_idempotent_witness :
  materializable example_map example_pool example_path /\
  exists m2 : Map,
    PublicRoad_FoundEndNode example_pool example_after example_path = Some m2 /\
    forall t, map_tiles m2 t = map_tiles example_after t.
Proof.
  split; [exact example_path_materializable|].
  destruct (PublicRoad_FoundEndNode_idempotent example_pool example_map
              example_path example_path_materializable)
    as (m1 & R & I & _).
  rewrite example_path_found in R. injection R as <-. exact I.
Defined.

Lemma PublicRoad_FoundEndNode_keeps_connectivity_witness :
  chain_adjacent example_map None example_path /\
  Forall (fun n => 0 <= tile n < 2 ^ 32) example_path /\
  (no_dangling_stub example_map -> no_dangling_stub example_after).
Proof.
  assert (A : chain_adjacent example_map None example_path)
    by (simpl; split; [exact I|]; split; [reflexivity|exact I]).
  assert (R : Forall (fun n => 0 <= tile n < 2 ^ 32) example_path)
    by (repeat constructor; simpl; lia).
  split; [exact A|]. split; [exact R|].
  exact (proj2 (PublicRoad_FoundEndNode_keeps_connectivity example_pool
                  example_map example_after example_path A R
                  example_path_found)).
Defined.

(** C4, as the specification states it, fails on the small map: the road
    tile 5 has a piece towards the house on tile 4 before the run, the run
    ORs the piece towards tile 6 into the set, and the piece towards the
    house is still there afterwards. *)
Lemma committed_connective_counterexample : ~ committed_connective_spec.
Proof.
  intros H.
  specialize (H example_pool example_map example_after example_path
                example_path_materializable example_path_expansion
                example_path_found
                (mkAyStarNode 5 INVALID_TRACKDIR) 10 DIAGDIR_NE
                (or_introl eq_refl) eq_refl eq_refl).
  vm_compute in H. discriminate.
Qed.

Lemma GeneratePublicRoads_round_witness :
  example_pool <> [] /\
  exists (begin : Town) (rest order : list Town),
    insertion_sort (fun a b => population a <? population b) example_pool
    = begin :: rest /\
    Permutation rest order /\
    forall m' next,
      connect_trace example_search example_pool begin example_map order m' next ->
      GeneratePublicRoads_loop insertion_sort example_search example_pool 1
                               MemSetT_finder example_map example_pool
      = match next with
        | [] => finder_Free (finder_after MemSetT_finder order) m'
        | _ => GeneratePublicRoads_loop insertion_sort example_search
                                        example_pool 0
                                        (finder_after MemSetT_finder order)
                                        m' next
        end.
Proof.
  assert (N : example_pool <> []) by discriminate.
  split; [exact N|].
  destruct (GeneratePublicRoads_round insertion_sort example_search
              example_pool insertion_sort_contract 0 MemSetT_finder
              example_map example_pool N)
    as (begin & rest & order & E & _ & _ & _ & P & _ & T & _).
  exists begin, rest, order. auto.
Defined.

Lemma GeneratePublicRoads_needs_a_town_witness :
  sort_contract insertion_sort /\
  example_pool <> [] /\
  forall fuel,
    GeneratePublicRoads insertion_sort example_search example_pool fuel
                        example_map <> EmptyVectorAccess.
Proof.
  split; [exact insertion_sort_contract|].
  assert (N : example_pool <> []) by discriminate.
  split; [exact N|].
  exact (proj2 (GeneratePublicRoads_needs_a_town insertion_sort example_search
                  example_pool insertion_sort_contract example_map) N).
Defined.

Lemma GeneratePublicRoads_terminates_witness :
  sort_contract insertion_sort /\
  (1 <= 3)%nat /\ (length example_pool <= 3)%nat /\
  GeneratePublicRoads insertion_sort example_search example_pool 3 example_map
  <> OutOfFuel.
Proof.
  split; [exact insertion_sort_contract|].
  assert (F : (1 <= 3)%nat) by lia.
  assert (L : (length example_pool <= 3)%nat) by (simpl; lia).
  split; [exact F|]. split; [exact L|].
  exact (GeneratePublicRoads_terminates insertion_sort example_search
           example_pool insertion_sort_contract 3 example_map F L).
Defined.

(** C2, as the specification states it, fails on the small map: no search
    ever finds a way to the town on tile 9, and the generation returns in
    its second round, in which that town is the start settlement. *)
Lemma never_returns_counterexample : ~ never_returns_spec.
Proof.
  intros H.
  assert (U : exists u, In u example_pool /\ unreachable example_search u).
  { exists (mkTown 2 9 200). split; [simpl; auto|].
    intros m start. reflexivity. }
  pose proof (H insertion_sort example_search example_pool example_map
                insertion_sort_contract U 2%nat) as R.
  destruct (GeneratePublicRoads insertion_sort example_search example_pool 2
              example_map) as [m'| | | |] eqn:E.
  - exact (R m' eq_refl).
  - vm_compute in E. discriminate.
  - vm_compute in E. discriminate.
  - vm_compute in E. discriminate.
  - vm_compute in E. discriminate.
Qed.

(* ===================================================================== *)
(** * Part V: further properties of the code *)
(* ===================================================================== *)

(** ** [CleanUpRoadBits] as an operation on road-bit sets *)

Lemma CleanUpRoadBits_bits m tile0 rb i :
  IsValidTile m tile0 = true ->
  Z.testbit (CleanUpRoadBits m tile0 rb) i =
  Z.testbit rb i && keeps_bit m tile0 i.
Proof.
  intros V. unfold CleanUpRoadBits, keeps_bit. rewrite V. simpl negb. cbv iota.
  apply CleanUpRoadBits_fold_bits.
Qed.

Lemma CleanUpRoadBits_invalid m tile0 rb :
  IsValidTile m tile0 = false -> CleanUpRoadBits m tile0 rb = ROAD_NONE.
Proof. intros V. unfold CleanUpRoadBits. now rewrite V. Qed.

(** X1.  [CleanUpRoadBits] is idempotent: cleaning a cleaned road-bit set
    on the same tile and map changes nothing. *)
Theorem CleanUpRoadBits_idempotent (m : Map) (tile0 : TileIndex)
  (org_rb : RoadBits) :
  CleanUpRoadBits m tile0 (CleanUpRoadBits m tile0 org_rb)
  = CleanUpRoadBits m tile0 org_rb.
Proof.
  destruct (IsValidTile m tile0) eqn:V.
  - apply Z.bits_inj. intros i. rewrite !CleanUpRoadBits_bits by assumption.
    now rewrite <- andb_assoc, andb_diag.
  - now rewrite !CleanUpRoadBits_invalid.
Qed.

(** X2.  [CleanUpRoadBits] distributes over the union and the intersection
    of proposals: every direction is decided on its own. *)
Theorem CleanUpRoadBits_distributes (m : Map) (tile0 : TileIndex)
  (a b : RoadBits) :
  CleanUpRoadBits m tile0 (Z.lor a b)
  = Z.lor (CleanUpRoadBits m tile0 a) (CleanUpRoadBits m tile0 b) /\
  CleanUpRoadBits m tile0 (Z.land a b)
  = Z.land (CleanUpRoadBits m tile0 a) (CleanUpRoadBits m tile0 b).
Proof.
  destruct (IsValidTile m tile0) eqn:V.
  - split; apply Z.bits_inj; intros i.
    + rewrite Z.lor_spec, !CleanUpRoadBits_bits, Z.lor_spec by assumption.
      apply andb_orb_distrib_l.
    + rewrite Z.land_spec, !CleanUpRoadBits_bits, Z.land_spec by assumption.
      destruct (Z.testbit a i), (Z.testbit b i), (keeps_bit m tile0 i);
        reflexivity.
  - rewrite !CleanUpRoadBits_invalid by assumption. split; reflexivity.
Qed.

Lemma keeps_bit_true m tile0 i :
  keeps_bit m tile0 i = true <->
  forall d, road_bit_index d = i -> connective m tile0 d = true.
Proof.
  unfold keeps_bit. rewrite forallb_forall. split.
  - intros H d E. specialize (H d). rewrite E, Z.eqb_refl in H.
    apply H. destruct d; simpl; auto.
  - intros H d _. destruct (Z.eqb_spec (road_bit_index d) i); auto.
Qed.

Lemma CleanUpRoadBits_unchanged m tile0 org_rb :
  IsValidTile m tile0 = true ->
  (forall d, has_road_bit org_rb d = true -> connective m tile0 d = true) ->
  CleanUpRoadBits m tile0 org_rb = org_rb.
Proof.
  intros V H. apply Z.bits_inj. intros i.
  rewrite CleanUpRoadBits_bits by assumption.
  destruct (Z.testbit org_rb i) eqn:T; [|reflexivity].
  simpl. apply keeps_bit_true. intros d <-. now apply H.
Qed.

(** X3.  On a valid tile [CleanUpRoadBits] returns the proposal unchanged
    exactly when every proposed direction has a connective neighbour. *)
Theorem CleanUpRoadBits_unchanged_iff (m : Map) (tile0 : TileIndex)
  (org_rb : RoadBits) :
  IsValidTile m tile0 = true ->
  (CleanUpRoadBits m tile0 org_rb = org_rb <->
   forall d, has_road_bit org_rb d = true -> connective m tile0 d = true).
Proof.
  intros V. split.
  - intros E d H.
    pose proof (CleanUpRoadBits_has_road_bit m tile0 org_rb d V) as B.
    rewrite E, H in B. simpl in B. now symmetry.
  - now apply CleanUpRoadBits_unchanged.
Qed.

(** ** The edge precheck and the heuristic *)

Lemma CanBuildRoadFromTo_sym m a b :
  flat_or_inclined m a = true ->
  flat_or_inclined m b = true ->
  CanBuildRoadFromTo m a b = CanBuildRoadFromTo m b a.
Proof.
  unfold flat_or_inclined, CanBuildRoadFromTo, GetTileSlope. cbn [fst].
  intros A B. rewrite (DistanceManhattan_sym m b a).
  destruct (DistanceManhattan m a b =? 1); [|reflexivity].
  cbn [assert bind]. rewrite A, B. f_equal. cbn [andb].
  rewrite (Z.eqb_sym (tile_slope (map_tiles m b)) (tile_slope (map_tiles m a))).
  rewrite (Z.eqb_sym (tile_height (map_tiles m b))
                     (tile_height (map_tiles m a))).
  destruct (tile_slope (map_tiles m a) =? tile_slope (map_tiles m b)),
    (tile_height (map_tiles m a) =? tile_height (map_tiles m b)),
    (tile_slope (map_tiles m a) =? SLOPE_FLAT),
    (tile_slope (map_tiles m b) =? SLOPE_FLAT); reflexivity.
Qed.

(** X4.  Between two tiles whose slopes are both flat or a single incline,
    [CanBuildRoadFromTo] gives the same answer in both directions (and
    fails its assertion in both or in neither). *)
Theorem CanBuildRoadFromTo_symmetric (m : Map) (a b : TileIndex) :
  flat_or_inclined m a = true ->
  flat_or_inclined m b = true ->
  CanBuildRoadFromTo m a b = CanBuildRoadFromTo m b a.
Proof. apply CanBuildRoadFromTo_sym. Qed.

Lemma int32_small (z : Z) : 0 <= z < 2 ^ 31 -> int32 z = z.
Proof. intros H. unfold int32. rewrite Z.mod_small; lia. Qed.

Lemma MapSizeY_pos m : 0 < MapSizeY m.
Proof.
  unfold MapSizeY. rewrite Z.shiftl_1_l. apply Z.pow_pos_nonneg; lia.
Qed.

Lemma on_map_coordinates m t :
  0 <= t < MapSize m ->
  0 <= TileX m t < MapSizeX m /\ 0 <= TileY m t < MapSizeY m.
Proof.
  intros R. rewrite TileX_mod, TileY_div.
  pose proof (MapSizeX_pos m) as P. pose proof (MapSizeY_pos m) as Q.
  split; [now apply Z.mod_pos_bound|].
  split; [apply Z.div_pos; lia|].
  apply Z.div_lt_upper_bound; [exact P|]. unfold MapSize in R. lia.
Qed.

Lemma on_map_distance m t0 t1 :
  Z.of_nat (map_log_x m) + Z.of_nat (map_log_y m) <= 30 ->
  0 <= t0 < MapSize m -> 0 <= t1 < MapSize m ->
  0 <= DistanceManhattan m t0 t1 < 2 ^ 31.
Proof.
  intros Fit R0 R1. split; [apply DistanceManhattan_nonneg|].
  assert (M : MapSize m <= 2 ^ 30)
    by (rewrite MapSize_pow2; apply Z.pow_le_mono_r; lia).
  destruct (on_map_coordinates m t0 R0) as [X0 Y0].
  destruct (on_map_coordinates m t1 R1) as [X1 Y1].
  unfold DistanceManhattan. rewrite !Delta_spec.
  unfold MapSize in M. nia.
Qed.

(** X5.  The heuristic is consistent on a map of at most [2 ^ 30] tiles:
    along an edge of the expansion, its value at the parent is at most the
    step cost plus its value at the neighbour. *)
Theorem PublicRoad_CalculateH_consistent (m : Map) (user_target : TileIndex)
  (a b : AyStarNode) :
  Z.of_nat (map_log_x m) + Z.of_nat (map_log_y m) <= 30 ->
  0 <= user_target < MapSize m ->
  0 <= tile a < MapSize m ->
  expands_to m a b ->
  PublicRoad_CalculateH m user_target a
  <= PublicRoad_CalculateG b a + PublicRoad_CalculateH m user_target b.
Proof.
  intros Fit Rt Ra E.
  pose proof (expands_to_adjacent m a b E) as D.
  destruct E as (l & EL & I).
  apply GetNeighbours_Some in EL as [_ EL].
  apply EL in I as (_ & d & Eb & V & _).
  assert (Rb : 0 <= tile b < MapSize m).
  { split.
    - rewrite Eb. unfold TILE_ADD, uint32. apply Z.mod_pos_bound. lia.
    - unfold IsValidTile in V. apply andb_true_iff in V as [V _].
      now apply Z.ltb_lt. }
  unfold PublicRoad_CalculateH, PublicRoad_CalculateG.
  rewrite !int32_small by now apply on_map_distance.
  pose proof (DistanceManhattan_triangle m user_target (tile b) (tile a)).
  rewrite (DistanceManhattan_sym m (tile b) (tile a)) in H. lia.
Qed.

Lemma DistanceManhattan_zero m a b : DistanceManhattan m a b = 0 <-> a = b.
Proof.
  split; [|intros ->; unfold DistanceManhattan; rewrite !Delta_spec; lia].
  unfold DistanceManhattan. rewrite !Delta_spec. intros H.
  rewrite (tile_decompose m a), (tile_decompose m b).
  replace (TileX m a) with (TileX m b) by lia.
  replace (TileY m a) with (TileY m b) by lia. reflexivity.
Qed.

(** X6.  On 32-bit tile indices the heuristic is zero exactly on the target,
    that is, exactly when [PublicRoad_EndNodeCheck] finds the end node. *)
Theorem PublicRoad_CalculateH_zero_iff (m : Map) (user_target : TileIndex)
  (current : AyStarNode) :
  (map_log_x m <= 32)%nat ->
  0 <= user_target < 2 ^ 32 ->
  0 <= tile current < 2 ^ 32 ->
  (PublicRoad_CalculateH m user_target current = 0 <->
   PublicRoad_EndNodeCheck user_target current = true).
Proof.
  intros L Rt Rc.
  pose proof (DistanceManhattan_uint m user_target (tile current) L Rt Rc) as B.
  unfold PublicRoad_CalculateH, PublicRoad_EndNodeCheck.
  rewrite Z.eqb_eq, <- (DistanceManhattan_zero m (tile current) user_target),
    (DistanceManhattan_sym m (tile current) user_target).
  set (D := DistanceManhattan m user_target (tile current)) in *.
  unfold int32.
  destruct (Z_lt_le_dec D (2 ^ 31)) as [S|G].
  - rewrite Z.mod_small by lia. lia.
  - rewrite <- (Z.mod_unique_pos (D + 2 ^ 31) (2 ^ 32) 1 (D - 2 ^ 31)) by lia.
    lia.
Qed.

(** ** The hash *)

(** X8.  [PublicRoad_Hash] gives a bucket below
    [1 << PUBLIC_ROAD_HASH_SIZE], the number of buckets that
    [GeneratePublicRoads] passes to [finder.Init], for every tile and
    direction. *)
Theorem PublicRoad_Hash_in_buckets (m : Map) (tile0 dir : Z) :
  0 <= PublicRoad_Hash m tile0 dir < Z.shiftl 1 PUBLIC_ROAD_HASH_SIZE.
Proof.
  unfold PublicRoad_Hash, GB, PUBLIC_ROAD_HASH_SIZE.
  rewrite Z.shiftr_0_r, Z.land_ones, Z.shiftl_1_l by lia.
  apply Z.mod_pos_bound. lia.
Qed.

(** ** More on [PublicRoad_FoundEndNode] *)

(** X9.  A chain of one node (a search that starts on its target) makes
    [PublicRoad_FoundEndNode] write nothing: with a closest town the map is
    returned as it is, and the tile is not turned into a road tile; without
    one the null pointer that [CalcClosestTownFromTile] gives is
    dereferenced. *)
Theorem PublicRoad_FoundEndNode_single_node (pool : list Town) (m : Map)
  (node : AyStarNode) :
  PublicRoad_FoundEndNode pool m [node] =
  match CalcClosestTownFromTile m pool (tile node) with
  | Some _ => Some m
  | None => None
  end.
Proof.
  unfold PublicRoad_FoundEndNode. rewrite FoundEndNode_loop_cons.
  unfold PublicRoad_FoundEndNode_step.
  destruct (CalcClosestTownFromTile m pool (tile node)); reflexivity.
Qed.

Lemma terrain_kept_refl o : terrain_kept o o.
Proof. unfold terrain_kept. auto. Qed.

Lemma terrain_kept_trans a b c :
  terrain_kept a b -> terrain_kept b c -> terrain_kept a c.
Proof.
  unfold terrain_kept. intros (S1 & H1 & T1) (S2 & H2 & T2).
  split; [congruence|]. split; [congruence|].
  destruct T2 as [T2|T2]; [rewrite T2; exact T1|now right].
Qed.

Lemma written_tile_terrain o rb town : terrain_kept o (written_tile o rb town).
Proof.
  unfold terrain_kept, written_tile.
  destruct (TileType_eqb (tile_type o) MP_ROAD); simpl; auto.
Qed.

Lemma FoundEndNode_loop_terrain pool path : forall m child m',
  PublicRoad_FoundEndNode_loop pool m child path = Some m' ->
  forall t, terrain_kept (map_tiles m t) (map_tiles m' t).
Proof.
  induction path as [|node parent IH]; intros m child m'.
  - simpl. intros [= <-] t. apply terrain_kept_refl.
  - rewrite FoundEndNode_loop_cons.
    destruct (PublicRoad_FoundEndNode_step pool m child node parent)
      as [m1|] eqn:B; [|discriminate].
    cbn [bind]. intros L t.
    eapply terrain_kept_trans; [|eapply IH; exact L].
    apply FoundEndNode_step_Some in B
      as (town & b1 & b2 & _ & _ & _ & [(_ & _ & ->)|(_ & _ & _ & ->)]).
    + apply terrain_kept_refl.
    + rewrite map_tiles_set_tile.
      destruct (Z.eqb_spec t (tile node)) as [->|];
        [apply written_tile_terrain|apply terrain_kept_refl].
Qed.

Lemma FoundEndNode_map_grows pool m path m1 :
  PublicRoad_FoundEndNode pool m path = Some m1 -> map_grows m m1.
Proof.
  intros R.
  pose proof (FoundEndNode_loop_effect _ _ _ _ _ R) as (S & _ & G).
  pose proof (FoundEndNode_loop_terrain _ _ _ _ _ R) as T.
  split; [exact S|]. intros t. split; [apply G|apply T].
Qed.

(** X11.  [PublicRoad_FoundEndNode] leaves the terrain alone: the map keeps
    its size, every tile keeps its slope and height, and a tile keeps its
    type or has become a road tile. *)
Theorem PublicRoad_FoundEndNode_keeps_terrain (pool : list Town) (m m1 : Map)
  (path : PathNode) :
  PublicRoad_FoundEndNode pool m path = Some m1 ->
  MapSize m1 = MapSize m /\
  forall t : TileIndex,
    GetTileSlope m1 t = GetTileSlope m t /\
    (GetTileType m1 t = GetTileType m t \/ GetTileType m1 t = MP_ROAD).
Proof.
  intros R. apply FoundEndNode_map_grows in R as [S G].
  split; [now apply same_size_MapSize|].
  intros t. destruct (G t) as [_ (E1 & E2 & T)].
  unfold GetTileSlope, GetTileType. rewrite E1, E2. auto.
Qed.

(** *** Later searches keep their edges *)

Lemma map_grows_IsValidTile m m1 (tiles : list TileIndex) :
  map_grows m m1 ->
  (forall t, ~ In t tiles -> map_tiles m1 t = map_tiles m t) ->
  Forall (fun t => IsValidTile m t = true) tiles ->
  forall t, IsValidTile m1 t = IsValidTile m t.
Proof.
  intros [S G] F V t. unfold IsValidTile, IsTileType, GetTileType.
  rewrite (same_size_MapSize m m1 S).
  destruct (in_dec Z.eq_dec t tiles) as [I|N]; [|now rewrite F].
  rewrite Forall_forall in V. specialize (V t I).
  unfold IsValidTile, IsTileType, GetTileType in V.
  apply andb_true_iff in V as [L NV]. rewrite L, NV. simpl.
  destruct (G t) as [_ (_ & _ & [T|T])]; rewrite T; [exact NV|reflexivity].
Qed.

Lemma map_grows_CanBuildRoadFromTo m m1 a b :
  map_grows m m1 -> CanBuildRoadFromTo m1 a b = CanBuildRoadFromTo m a b.
Proof.
  intros [S G]. unfold CanBuildRoadFromTo, GetTileSlope.
  rewrite (same_size_DistanceManhattan m m1 a b S).
  destruct (G a) as [_ (Sa & Ha & _)]. destruct (G b) as [_ (Sb & Hb & _)].
  now rewrite Sa, Ha, Sb, Hb.
Qed.

Lemma same_size_TILE_ADD m m1 t d :
  same_size m m1 ->
  TILE_ADD t (TileOffsByDiagDir m1 d) = TILE_ADD t (TileOffsByDiagDir m d).
Proof. intros H. same_geometry. Qed.

(** X10.  Materializing a chain whose tiles are all valid removes no edge
    of the search graph: whatever [PublicRoad_GetNeighbours] gave for a node
    before the run, it still gives afterwards, so a later search can go
    wherever an earlier one could. *)
Theorem PublicRoad_FoundEndNode_keeps_edges (pool : list Town) (m m1 : Map)
  (path : PathNode) :
  Forall (fun n => IsValidTile m (tile n) = true) path ->
  PublicRoad_FoundEndNode pool m path = Some m1 ->
  forall a b : AyStarNode, expands_to m a b -> expands_to m1 a b.
Proof.
  intros V R a b (l & E & I).
  pose proof (FoundEndNode_map_grows _ _ _ _ R) as G.
  pose proof (FoundEndNode_loop_effect _ _ _ _ _ R) as (S & F & _).
  assert (Val : forall t, IsValidTile m1 t = IsValidTile m t).
  { apply (map_grows_IsValidTile m m1 (map tile path) G F).
    rewrite Forall_forall in V |- *. intros t It.
    apply in_map_iff in It as (n & <- & In'). now apply V. }
  assert (P : probes_adjacent m1 (tile a)).
  { intros d. rewrite (same_size_TILE_ADD m m1) by assumption.
    rewrite Val, (same_size_DistanceManhattan m m1) by assumption.
    eapply GetNeighbours_for_each_probes; [exact E|].
    destruct d; simpl; auto. }
  destruct (GetNeighbours_for_each_total m1 (tile a) all_diagdirs [] P)
    as [l1 E1].
  exists l1. split; [exact E1|].
  apply (GetNeighbours_Some m a l E) in I as (Db & d & Eb & Vb & Cb & Tb).
  apply (GetNeighbours_Some m1 a l1 E1). split; [exact Db|].
  exists d. rewrite (same_size_TILE_ADD m m1) by assumption.
  split; [exact Eb|]. rewrite Val. split; [exact Vb|].
  rewrite (map_grows_CanBuildRoadFromTo m m1) by assumption.
  split; [exact Cb|].
  destruct G as [_ G]. destruct (G (tile b)) as [_ (_ & _ & T)].
  unfold GetTileType in *. destruct T as [T|T]; rewrite T; auto.
Qed.

(** ** More on [GeneratePublicRoads] *)

Lemma map_grows_refl m : map_grows m m.
Proof.
  split; [apply same_size_refl|].
  intros t. split; [apply tile_le_refl|apply terrain_kept_refl].
Qed.

Lemma map_grows_trans m1 m2 m3 :
  map_grows m1 m2 -> map_grows m2 m3 -> map_grows m1 m3.
Proof.
  intros [S1 G1] [S2 G2]. split; [eapply same_size_trans; eassumption|].
  intros t. destruct (G1 t), (G2 t).
  split; [eapply tile_le_trans|eapply terrain_kept_trans]; eassumption.
Qed.

Lemma connect_trace_map_grows search pool begin m l m' next :
  connect_trace search pool begin m l m' next -> map_grows m m'.
Proof.
  induction 1 as [m|m m1 m' e rest next path S F T IH
                   |m m' e rest next S T IH].
  - apply map_grows_refl.
  - eapply map_grows_trans; [|exact IH].
    eapply FoundEndNode_map_grows; exact F.
  - exact IH.
Qed.

Section GeneratorFurther.

Variable sort : (Town -> Town -> bool) -> list Town -> list Town.
Variable search : Search.
Hypothesis sort_ok : sort_contract sort.

Lemma sort_nil lt : sort lt [] = [].
Proof. apply Permutation_nil, sort_ok. Qed.

Lemma sort_singleton lt (t : Town) : sort lt [t] = [t].
Proof. apply Permutation_length_1_inv, sort_ok. Qed.

(** X13.  With a single settlement [GeneratePublicRoads] does not return:
    its one round runs no search, so [finder.Init] is never called, the map
    is not touched, and the [finder.Free()] that follows the loop gets the
    engine as [MemSetT] zeroed it. *)
Theorem GeneratePublicRoads_single_town (t : Town) (fuel : nat) (m : Map) :
  GeneratePublicRoads sort search [t] (S fuel) m = FreeOfZeroedEngine.
Proof.
  unfold GeneratePublicRoads. cbn [GeneratePublicRoads_loop].
  rewrite sort_singleton, sort_nil. reflexivity.
Qed.

Lemma GeneratePublicRoads_loop_grows pool (fuel : nat) :
  forall finder m unconnected_towns m',
    GeneratePublicRoads_loop sort search pool fuel finder m unconnected_towns
    = Returned m' ->
    map_grows m m'.
Proof.
  induction fuel as [|fuel IH]; intros finder m towns m'; [discriminate|].
  cbn [GeneratePublicRoads_loop].
  destruct (sort _ towns) as [|begin rest]; [discriminate|].
  match goal with
  | |- context [for_each ?f ?l ?s] =>
      destruct (for_each f l s) as [[[finder1 m1] out]|] eqn:E
  end; [|discriminate].
  apply for_each_connect_Some in E as (_ & next & -> & T).
  apply connect_trace_map_grows in T.
  destruct next as [|u next]; simpl.
  - destruct finder1; [discriminate|]. intros [= <-]. exact T.
  - intros H. eapply map_grows_trans; [exact T|]. eapply IH; exact H.
Qed.

(** X14.  Whatever the searches find, the map that [GeneratePublicRoads]
    returns has the size of the map it started from, every tile has kept
    its slope and height and has kept its type or become a road tile, and
    no road-bit set of the start map has lost a bit. *)
Theorem GeneratePublicRoads_only_adds_road (pool : list Town) (fuel : nat)
  (m m' : Map) :
  GeneratePublicRoads sort search pool fuel m = Returned m' ->
  MapSize m' = MapSize m /\
  (forall t : TileIndex,
      GetTileSlope m' t = GetTileSlope m t /\
      (GetTileType m' t = GetTileType m t \/ GetTileType m' t = MP_ROAD)) /\
  (forall (t : TileIndex) (old : RoadBits),
      GetRoadBits m t ROADTYPE_ROAD = Some old ->
      exists new, GetRoadBits m' t ROADTYPE_ROAD = Some new /\
                  bits_subset old new).
Proof.
  intros R. apply GeneratePublicRoads_loop_grows in R as [S G].
  split; [now apply same_size_MapSize|]. split.
  - intros t. destruct (G t) as [_ (E1 & E2 & T)].
    unfold GetTileSlope, GetTileType. rewrite E1, E2. auto.
  - intros t old O. apply GetRoadBits_Some in O as [N ->].
    destruct (G t) as [L _]. destruct (L N) as [N' X].
    exists (road_bits (map_tiles m' t)). split.
    + apply GetRoadBits_Some. auto.
    + intros i B. rewrite <- X, Z.lor_spec, B. reflexivity.
Qed.

Lemma for_each_connect_never_finds pool begin l :
  never_finds search ->
  forall finder m acc,
    for_each (connect search pool begin) l (finder, m, acc)
    = Some (finder_after finder l, m, acc ++ l).
Proof.
  intros NF. induction l as [|e l IH]; intros finder m acc; simpl.
  - now rewrite app_nil_r.
  - unfold connect at 1, finder_Main. rewrite NF. simpl.
    rewrite IH, <- app_assoc. reflexivity.
Qed.

Lemma GeneratePublicRoads_loop_never_finds pool (fuel : nat) :
  never_finds search ->
  forall finder m unconnected_towns,
    unconnected_towns <> [] ->
    (length unconnected_towns <= fuel)%nat ->
    GeneratePublicRoads_loop sort search pool fuel finder m unconnected_towns
    = finder_Free (match unconnected_towns with
                   | _ :: _ :: _ => Initialized
                   | _ => finder
                   end) m.
Proof.
  intros NF. induction fuel as [|fuel IH]; intros finder m towns N L.
  - destruct towns; [congruence|simpl in L; lia].
  - cbn [GeneratePublicRoads_loop].
    assert (L1 : length (sort (fun a b => population a <? population b) towns)
                 = length towns)
      by (symmetry; apply Permutation_length, sort_ok).
    destruct (sort _ towns) as [|begin rest];
      [destruct towns; [congruence|discriminate]|].
    rewrite for_each_connect_never_finds by assumption. cbn [app].
    match goal with
    | |- context [sort ?lt rest] =>
        assert (L2 : length (sort lt rest) = length rest)
          by (symmetry; apply Permutation_length, sort_ok);
        destruct (sort lt rest) as [|u order] eqn:E
    end.
    + destruct rest; [|discriminate L2].
      destruct towns as [|a [|b towns]];
        [congruence|reflexivity|discriminate L1].
    + rewrite finder_after_cons.
      rewrite IH; [|discriminate|simpl in *; lia].
      destruct towns as [|a [|b towns]]; [congruence|simpl in *; lia|].
      destruct order; reflexivity.
Qed.

(** X15.  When no search finds a path, [GeneratePublicRoads] with [n]
    settlements, [n >= 2], returns within [n] rounds and leaves the map as
    it is: the first round sets the engine up, every round requeues all the
    settlements it searched for, and the last round has none to search
    for. *)
Theorem GeneratePublicRoads_never_finds (pool : list Town) (fuel : nat)
  (m : Map) :
  never_finds search ->
  (2 <= length pool)%nat ->
  (length pool <= fuel)%nat ->
  GeneratePublicRoads sort search pool fuel m = Returned m.
Proof.
  intros NF N L. unfold GeneratePublicRoads.
  rewrite GeneratePublicRoads_loop_never_finds; try assumption.
  - destruct pool as [|a [|b l]]; simpl in N; try lia. reflexivity.
  - destruct pool; [simpl in N; lia|discriminate].
Qed.

End GeneratorFurther.

(** ** [HasRoadTypesAvail] and [ValParamRoadType] *)

Lemma land_lnot_subset (a b : Z) :
  (Z.land a (Z.lnot b) =? 0) = true <-> bits_subset a b.
Proof.
  rewrite Z.eqb_eq. split.
  - intros E i T.
    destruct (Z.neg_nonneg_cases i) as [N|P];
      [rewrite Z.testbit_neg_r in T by assumption; discriminate|].
    pose proof (f_equal (fun z => Z.testbit z i) E) as B. cbv beta in B.
    rewrite Z.land_spec, Z.lnot_spec, Z.bits_0, T in B by assumption.
    now destruct (Z.testbit b i).
  - intros S. apply Z.bits_inj'. intros i P.
    rewrite Z.land_spec, Z.lnot_spec, Z.bits_0 by assumption.
    destruct (Z.testbit a i) eqn:T; [|reflexivity].
    now rewrite (S i T).
Qed.

Lemma HasRoadTypesAvail_cases g company rts :
  HasRoadTypesAvail g company rts =
  if road_only_context g company
  then Z.land rts (Z.lnot ROADTYPES_ROAD) =? 0
  else match company_pool g company with
       | None => false
       | Some c =>
           Z.land rts (Z.lnot (Z.lor (avail_roadtypes c) ROADTYPES_ROAD)) =? 0
       end.
Proof. reflexivity. Qed.

(** X16.  [HasRoadTypesAvail] accepts a set of road types exactly in these
    cases: for the deity, a town, in the scenario editor or during world
    generation, when the set holds nothing but road; otherwise when the
    company is a valid company and the set is within the company's road
    types and road.  An invalid company is refused even the empty set. *)
Theorem HasRoadTypesAvail_iff (g : Game) (company : CompanyID)
  (rts : RoadTypes) :
  HasRoadTypesAvail g company rts = true <->
  if road_only_context g company
  then bits_subset rts ROADTYPES_ROAD
  else exists c, company_pool g company = Some c /\
                 bits_subset rts (Z.lor (avail_roadtypes c) ROADTYPES_ROAD).
Proof.
  rewrite HasRoadTypesAvail_cases.
  destruct (road_only_context g company); [apply land_lnot_subset|].
  destruct (company_pool g company) as [c|].
  - rewrite land_lnot_subset. split; [eauto|].
    intros (c' & [= <-] & S). exact S.
  - split; [discriminate|]. intros (c & E & _). discriminate.
Qed.

Lemma land_union_eqb (a b n : Z) :
  (Z.land (Z.lor a b) n =? 0) = (Z.land a n =? 0) && (Z.land b n =? 0).
Proof.
  rewrite Z.land_lor_distr_l.
  destruct (Z.eqb_spec (Z.land a n) 0) as [A|A];
    destruct (Z.eqb_spec (Z.land b n) 0) as [B|B]; simpl;
    rewrite ?Z.eqb_eq, ?Z.eqb_neq, Z.lor_eq_0_iff; tauto.
Qed.

(** X17.  A union of road-type sets is available to a company exactly when
    both sets are: [HasRoadTypesAvail] decides every road type on its
    own. *)
Theorem HasRoadTypesAvail_union (g : Game) (company : CompanyID)
  (a b : RoadTypes) :
  HasRoadTypesAvail g company (Z.lor a b)
  = HasRoadTypesAvail g company a && HasRoadTypesAvail g company b.
Proof.
  rewrite !HasRoadTypesAvail_cases.
  destruct (road_only_context g company); [apply land_union_eqb|].
  destruct (company_pool g company); [apply land_union_eqb|reflexivity].
Qed.

Lemma testbit_1 (i : Z) : Z.testbit 1 i = (i =? 0).
Proof.
  change 1 with (2 ^ 0). rewrite Z.pow2_bits_eqb by lia. apply Z.eqb_sym.
Qed.

Lemma bits_subset_1 (a : Z) : bits_subset a 1 <-> a = 0 \/ a = 1.
Proof.
  split.
  - intros S. destruct (Z.testbit a 0) eqn:T; [right|left];
      apply Z.bits_inj; intros i; rewrite ?Z.bits_0, ?testbit_1;
      destruct (Z.eqb_spec i 0) as [->|N]; auto;
      destruct (Z.testbit a i) eqn:B; auto;
      apply S in B; rewrite testbit_1 in B;
      apply Z.eqb_eq in B; congruence.
  - intros [->| ->] i; [rewrite Z.bits_0; discriminate|auto].
Qed.

(** X18.  For the deity, a town, in the scenario editor and during world
    generation, [HasRoadTypesAvail] accepts the empty set and road alone and
    nothing else, whatever road types the company has: trams are never
    available there. *)
Theorem HasRoadTypesAvail_road_only (g : Game) (company : CompanyID)
  (rts : RoadTypes) :
  road_only_context g company = true ->
  (HasRoadTypesAvail g company rts = true <->
   rts = ROADTYPES_NONE \/ rts = ROADTYPES_ROAD).
Proof.
  intros C. rewrite HasRoadTypesAvail_cases, C, land_lnot_subset.
  apply bits_subset_1.
Qed.

Lemma bits_subset_pow2 (k b : Z) :
  0 <= k -> (bits_subset (2 ^ k) b <-> Z.testbit b k = true).
Proof.
  intros K. split.
  - intros S. apply S. now apply Z.pow2_bits_true.
  - intros T i B. rewrite Z.pow2_bits_eqb in B by assumption.
    apply Z.eqb_eq in B. now subst.
Qed.

(** X19.  [ValParamRoadType] accepts road exactly when the current company
    is the deity or a town, the game is in the scenario editor or
    generating a world, or the current company is valid; it accepts tram
    exactly when none of the first four holds and the current company is
    valid and has the tram bit in its road types. *)
Theorem ValParamRoadType_iff (g : Game) :
  (ValParamRoadType g ROADTYPE_ROAD = true <->
   road_only_context g (current_company g) = true \/
   company_pool g (current_company g) <> None) /\
  (ValParamRoadType g ROADTYPE_TRAM = true <->
   road_only_context g (current_company g) = false /\
   exists c, company_pool g (current_company g) = Some c /\
             HasBit (avail_roadtypes c) (RoadType_val ROADTYPE_TRAM) = true).
Proof.
  unfold ValParamRoadType, RoadTypeToRoadTypes, HasBit.
  rewrite !HasRoadTypesAvail_cases, !Z.shiftl_1_l.
  destruct (road_only_context g (current_company g)); split.
  - split; [auto|reflexivity].
  - split; [discriminate|intros [? _]; discriminate].
  - destruct (company_pool g (current_company g)) as [c|].
    + rewrite land_lnot_subset, bits_subset_pow2 by (simpl; lia).
      split; [intros _; right; discriminate|intros _].
      rewrite Z.lor_spec. apply orb_true_r.
    + split; [discriminate|intros [?|?]; congruence].
  - destruct (company_pool g (current_company g)) as [c|].
    + rewrite land_lnot_subset, bits_subset_pow2 by (simpl; lia).
      rewrite Z.lor_spec. change (Z.testbit ROADTYPES_ROAD _) with false.
      rewrite orb_false_r. split; [eauto|].
      intros (_ & c' & [= <-] & T). exact T.
    + split; [discriminate|]. intros (_ & c & E & _). discriminate.
Qed.

(** ** [GetCompanyRoadtypes] *)

Lemma GetCompanyRoadtypes_step_bits g company rt e i :
  Z.testbit (GetCompanyRoadtypes_step g company rt e) i =
  Z.testbit rt i ||
  (engine_passes g company e && (RoadType_val (engine_road_type e) =? i)).
Proof.
  unfold GetCompanyRoadtypes_step, engine_passes, engine_road_type, SetBit.
  destruct (engine_type e); try (now rewrite orb_false_r).
  destruct (HasBit (climates e) (landscape g) &&
            (HasBit (company_avail e) company ||
             (int32 (intro_date e + DAYS_IN_YEAR) <=? date g)));
    [|now rewrite orb_false_r].
  rewrite Z.lor_spec, Z.shiftl_1_l. cbn [andb].
  destruct (HasBit (misc_flags e) EF_ROAD_TRAM); cbn [RoadType_val];
    rewrite Z.pow2_bits_eqb by lia; reflexivity.
Qed.

Lemma GetCompanyRoadtypes_fold_bits g company l : forall rt i,
  Z.testbit (fold_left (GetCompanyRoadtypes_step g company) l rt) i =
  Z.testbit rt i ||
  existsb (fun e => engine_passes g company e &&
                    (RoadType_val (engine_road_type e) =? i)) l.
Proof.
  induction l as [|e l IH]; intros rt i; simpl.
  - now rewrite orb_false_r.
  - rewrite IH, GetCompanyRoadtypes_step_bits, orb_assoc. reflexivity.
Qed.

Lemma GetCompanyRoadtypes_bits g company i :
  Z.testbit (GetCompanyRoadtypes g company) i = true <->
  exists e, In e (engine_pool g) /\ engine_passes g company e = true /\
            RoadType_val (engine_road_type e) = i.
Proof.
  unfold GetCompanyRoadtypes.
  rewrite GetCompanyRoadtypes_fold_bits, Z.bits_0, orb_false_l, existsb_exists.
  split; intros (e & I & H); exists e; (split; [exact I|]).
  - apply andb_true_iff in H as [C T]. apply Z.eqb_eq in T. auto.
  - destruct H as [C T]. rewrite C. now apply Z.eqb_eq.
Qed.

Lemma int32_in_range (z : Z) : - 2 ^ 31 <= z < 2 ^ 31 -> int32 z = z.
Proof. intros H. unfold int32. rewrite Z.mod_small; lia. Qed.

Lemma engine_passes_counts g company e :
  intro_dates_in_range g -> In e (engine_pool g) ->
  engine_passes g company e = engine_counts g company e.
Proof.
  intros R I. unfold engine_passes, engine_counts.
  destruct (engine_type e) eqn:T; try reflexivity.
  rewrite int32_in_range by (apply R; assumption). reflexivity.
Qed.

(** X20.  When for every road vehicle engine of the pool the day a year
    after its introduction is a 32-bit date (so that the sum of the code
    does not wrap around), [GetCompanyRoadtypes] has the bit of a road type
    exactly when the engine pool holds a road vehicle engine of that road
    type which exists in the climate and which the company may use or which
    was introduced a year ago or longer; the result is one of the four sets
    over road and tram. *)
Theorem GetCompanyRoadtypes_iff (g : Game) (company : CompanyID) :
  intro_dates_in_range g ->
  (forall rt : RoadType,
      HasBit (GetCompanyRoadtypes g company) (RoadType_val rt) = true <->
      exists e, In e (engine_pool g) /\ engine_counts g company e = true /\
                engine_road_type e = rt) /\
  ROADTYPES_NONE <= GetCompanyRoadtypes g company <= ROADTYPES_ALL.
Proof.
  intros R. split.
  - intros rt. unfold HasBit. rewrite GetCompanyRoadtypes_bits.
    split; intros (e & I & C & T); exists e; (split; [exact I|]).
    + rewrite (engine_passes_counts _ _ _ R I) in C. split; [exact C|].
      destruct (engine_road_type e), rt; simpl in T; congruence.
    + rewrite (engine_passes_counts _ _ _ R I). split; [exact C|].
      now rewrite T.
  - assert (E : GetCompanyRoadtypes g company
                = Z.land (GetCompanyRoadtypes g company) (Z.ones 2)).
    { apply Z.bits_inj. intros i. rewrite Z.land_spec.
      destruct (Z.testbit (GetCompanyRoadtypes g company) i) eqn:B;
        [|reflexivity].
      apply GetCompanyRoadtypes_bits in B as (e & _ & _ & <-).
      destruct (engine_road_type e); reflexivity. }
    rewrite Z.land_ones in E by lia.
    pose proof (Z.mod_pos_bound (GetCompanyRoadtypes g company) (2 ^ 2)).
    unfold ROADTYPES_NONE, ROADTYPES_ALL. lia.
Qed.

Lemma engine_passes_later g company e d :
  date g <= d ->
  engine_passes g company e = true ->
  engine_passes (with_date g d) company e = true.
Proof.
  unfold engine_passes, with_date. simpl.
  destruct (engine_type e); auto.
  rewrite !andb_true_iff, !orb_true_iff, !Z.leb_le. intuition lia.
Qed.

(** X21.  The road types of a company never shrink as the date advances:
    with the same engines, climate and company, every road type that
    [GetCompanyRoadtypes] gives at a date it gives at every later date. *)
Theorem GetCompanyRoadtypes_later (g : Game) (company : CompanyID) (d : Z) :
  date g <= d ->
  bits_subset (GetCompanyRoadtypes g company)
              (GetCompanyRoadtypes (with_date g d) company).
Proof.
  intros L i B. apply GetCompanyRoadtypes_bits in B as (e & I & C & T).
  apply GetCompanyRoadtypes_bits. exists e.
  split; [exact I|]. split; [now apply engine_passes_later|exact T].
Qed.

(** ** More on [PublicRoad_GetNeighbours] *)

Lemma offset_direction m t d d' :
  (1 <= map_log_x m <= 30)%nat ->
  TILE_ADD t (TileOffsByDiagDir m d) = t + TileOffsByDiagDir m d' ->
  d = d'.
Proof.
  intros [L1 L2]. unfold TILE_ADD, uint32. intros E.
  pose proof (Z.div_mod (t + TileOffsByDiagDir m d) (2 ^ 32)) as Q.
  rewrite E in Q.
  set (q := (t + TileOffsByDiagDir m d) / 2 ^ 32) in *. clearbody q.
  assert (S2 : 2 <= MapSizeX m <= 2 ^ 30).
  { rewrite MapSizeX_pow2. unfold MapLogX. split.
    - change 2 with (2 ^ 1) at 1. apply Z.pow_le_mono_r; lia.
    - apply Z.pow_le_mono_r; lia. }
  clear E. revert Q.
  destruct d, d'; cbv [TileOffsByDiagDir tileoffs_by_diagdir];
    intros Q; try reflexivity; exfalso; lia.
Qed.

Lemma selected_adjacent m tile0 d n :
  In n (selected m tile0 d) ->
  tile n = TILE_ADD tile0 (TileOffsByDiagDir m d) /\
  DistanceManhattan m tile0 (tile n) = 1.
Proof.
  intros I. apply selected_In in I as (E & _ & C & _).
  split; [now rewrite E|]. eapply CanBuildRoadFromTo_Some; exact C.
Qed.

Lemma selected_direction m tile0 d n :
  (1 <= map_log_x m <= 30)%nat ->
  In n (selected m tile0 d) ->
  DiagdirBetweenTiles m tile0 (tile n) = Some d.
Proof.
  intros L I. apply selected_adjacent in I as [E D].
  destruct (adjacent_DiagdirBetweenTiles m tile0 (tile n) D) as [d' B].
  pose proof (adjacent_offset m tile0 (tile n) d' D B) as O.
  rewrite E in O. now rewrite B, (offset_direction m tile0 d d' L O).
Qed.

Lemma selected_NoDup m tile0 ds :
  (1 <= map_log_x m <= 30)%nat ->
  NoDup ds -> NoDup (map tile (flat_map (selected m tile0) ds)).
Proof.
  intros L. induction 1 as [|d ds NI ND IH]; simpl; [constructor|].
  rewrite map_app. apply NoDup_app.
  - pose proof (selected_length m tile0 d) as Len.
    destruct (selected m tile0 d) as [|a [|b s]]; simpl in *;
      [constructor|repeat constructor; auto|lia].
  - exact IH.
  - intros x I1 I2.
    apply in_map_iff in I1 as (n1 & <- & I1).
    apply in_map_iff in I2 as (n2 & E & I2).
    apply in_flat_map in I2 as (d' & Id & I2).
    apply (selected_direction m tile0 d n1 L) in I1.
    apply (selected_direction m tile0 d' n2 L) in I2.
    rewrite E in I2. assert (d = d') by congruence. subst. contradiction.
Qed.

(** X7.  On a map at least 2 and at most [2 ^ 30] tiles wide,
    [PublicRoad_GetNeighbours] never gives a tile twice and never gives the
    current tile itself. *)
Theorem PublicRoad_GetNeighbours_distinct (m : Map) (current : AyStarNode)
  (l : list AyStarNode) :
  (1 <= map_log_x m <= 30)%nat ->
  PublicRoad_GetNeighbours m current = Some l ->
  NoDup (map tile l) /\ ~ In (tile current) (map tile l).
Proof.
  intros L E. apply GetNeighbours_for_each_Some in E. cbn [app] in E.
  subst l. split.
  - apply selected_NoDup; [exact L|]. unfold all_diagdirs.
    repeat constructor; simpl; intuition discriminate.
  - intros I. apply in_map_iff in I as (n & En & I).
    apply in_flat_map in I as (d & _ & I).
    apply selected_adjacent in I as [_ D].
    rewrite En in D.
    pose proof (proj2 (DistanceManhattan_zero m (tile current) (tile current))
                  eq_refl). lia.
Qed.

Lemma reverse_offset m d :
  TileOffsByDiagDir m (ReverseDiagDir d) = - TileOffsByDiagDir m d.
Proof. destruct d; cbv [TileOffsByDiagDir tileoffs_by_diagdir ReverseDiagDir]; lia. Qed.

Lemma CanBuildRoadFromTo_true_end m a b :
  CanBuildRoadFromTo m a b = Some true -> flat_or_inclined m b = true.
Proof.
  unfold CanBuildRoadFromTo, flat_or_inclined, GetTileSlope. cbn [fst].
  destruct (DistanceManhattan m a b =? 1); [|discriminate].
  cbn [assert bind]. intros [= H]. now apply andb_true_iff in H as [H _].
Qed.

(** X22.  The search graph is symmetric where the terrain allows it and the
    expansion of the neighbour keeps the contract of [CanBuildRoadFromTo]:
    when the expansion of a node gives a neighbour, the tile of the node is
    a 32-bit index of a valid tile of clear ground, trees or road whose
    slope is flat or a single incline, and every valid offset tile of the
    neighbour is at Manhattan distance 1 from it ([probes_adjacent], as on
    a map with a void border; without it the expansion of the neighbour
    stops at the assertion and gives nothing), then the expansion of the
    neighbour gives the tile of the node back. *)
Theorem PublicRoad_GetNeighbours_symmetric (m : Map) (a b : AyStarNode) :
  expands_to m a b ->
  0 <= tile a < 2 ^ 32 ->
  IsValidTile m (tile a) = true ->
  GetTileType m (tile a) = MP_CLEAR \/ GetTileType m (tile a) = MP_TREES \/
  GetTileType m (tile a) = MP_ROAD ->
  flat_or_inclined m (tile a) = true ->
  probes_adjacent m (tile b) ->
  expands_to m b (mkAyStarNode (tile a) INVALID_TRACKDIR).
Proof.
  intros (l & E & I) R V T F P.
  apply (GetNeighbours_Some m a l E) in I as (_ & d & Eb & Vb & Cb & Tb).
  destruct (GetNeighbours_for_each_total m (tile b) all_diagdirs [] P)
    as [l' E'].
  exists l'. split; [exact E'|].
  apply (GetNeighbours_Some m b l' E'). split; [reflexivity|].
  exists (ReverseDiagDir d). cbn [tile].
  split; [|split; [exact V|split; [|exact T]]].
  - rewrite Eb, reverse_offset. unfold TILE_ADD, uint32.
    rewrite Z.add_opp_r, Zminus_mod_idemp_l.
    replace (tile a + TileOffsByDiagDir m d - TileOffsByDiagDir m d)
      with (tile a) by lia.
    symmetry. now apply Z.mod_small.
  - rewrite <- Cb. apply CanBuildRoadFromTo_sym; [|exact F].
    eapply CanBuildRoadFromTo_true_end; exact Cb.
Qed.

(** ** The validator accepts what materialization computes *)

(** X12.  After [PublicRoad_FoundEndNode] has materialized a chain of two
    or more adjacent tiles, [CleanUpRoadBits] returns the road-bit set
    computed for every node of the chain unchanged: the bits that
    materialization writes without asking the validator are bits that the
    validator accepts on the map that results. *)
Theorem CleanUpRoadBits_accepts_materialized (pool : list Town) (m m1 : Map)
  (path : PathNode) :
  chain_adjacent m None path ->
  Forall (fun n => 0 <= tile n < 2 ^ 32) path ->
  (2 <= length path)%nat ->
  PublicRoad_FoundEndNode pool m path = Some m1 ->
  forall t rb,
    In (t, rb) (planned_bits m None path) ->
    CleanUpRoadBits m1 t rb = rb.
Proof.
  intros A Rg Len R t rb I.
  pose proof (FoundEndNode_loop_effect _ _ _ _ _ R) as (S & _ & _).
  assert (Cov : forall n, In n path ->
                  tile n < MapSize m1 /\ is_normal_road (map_tiles m1 (tile n))).
  { eapply saturated_covers.
    - eapply FoundEndNode_loop_saturated. exact R.
    - now right. }
  assert (Valid : forall n, In n path -> IsValidTile m1 (tile n) = true).
  { intros n In'. destruct (Cov n In') as [L [T _]].
    unfold IsValidTile, IsTileType, GetTileType.
    apply Z.ltb_lt in L. now rewrite L, T. }
  apply CleanUpRoadBits_unchanged.
  - apply planned_bits_tiles in I. apply in_map_iff in I as (n & <- & In').
    now apply Valid.
  - intros d H.
    destruct (planned_bits_point_into_chain _ _ _ _ _ _ A I H)
      as (c & [Ec|Ic] & D & E); [discriminate|].
    assert (Rc : 0 <= tile c < 2 ^ 32).
    { rewrite Forall_forall in Rg. now apply Rg. }
    pose proof (adjacent_TileAddByDiagDir m t (tile c) d Rc D E) as T.
    destruct (Cov c Ic) as [Lc Nc].
    rewrite <- T, <- (same_size_TileAddByDiagDir m m1) in Lc, Nc
      by assumption.
    now apply connective_normal_road.
Qed.

(* ===================================================================== *)
(** * Part VI: the further properties on the small map *)
(* ===================================================================== *)

Lemma example_expands_5_6 :
  expands_to example_map (mkAyStarNode 5 INVALID_TRACKDIR)
             (mkAyStarNode 6 INVALID_TRACKDIR).
Proof. eexists. split; [vm_compute; reflexivity|]. simpl. auto. Qed.

Lemma example_path_adjacent : chain_adjacent example_map None example_path.
Proof. simpl. split; [exact I|]. split; [reflexivity|exact I]. Qed.

Lemma example_path_range :
  Forall (fun n => 0 <= tile n < 2 ^ 32) example_path.
Proof. repeat constructor; simpl; lia. Qed.

Lemma example_generated_returned :
  GeneratePublicRoads insertion_sort example_search example_pool 2 example_map
  = Returned example_generated.
Proof. vm_compute. reflexivity. Qed.

Lemma CleanUpRoadBits_unchanged_iff_witness :
  IsValidTile example_map 5 = true /\
  (CleanUpRoadBits example_map 5 7 = 7 <->
   forall d, has_road_bit 7 d = true -> connective example_map 5 d = true).
Proof.
  split; [reflexivity|].
  apply (CleanUpRoadBits_unchanged_iff example_map 5 7). reflexivity.
Defined.

Lemma CanBuildRoadFromTo_symmetric_witness :
  flat_or_inclined example_map 5 = true /\
  flat_or_inclined example_map 6 = true /\
  CanBuildRoadFromTo example_map 5 6 = CanBuildRoadFromTo example_map 6 5.
Proof.
  split; [reflexivity|]. split; [reflexivity|].
  apply (CanBuildRoadFromTo_symmetric example_map 5 6); reflexivity.
Defined.

Lemma PublicRoad_CalculateH_consistent_witness :
  Z.of_nat (map_log_x example_map) + Z.of_nat (map_log_y example_map) <= 30 /\
  0 <= 9 < MapSize example_map /\
  0 <= 5 < MapSize example_map /\
  PublicRoad_CalculateH example_map 9 (mkAyStarNode 5 INVALID_TRACKDIR)
  <= PublicRoad_CalculateG (mkAyStarNode 6 INVALID_TRACKDIR)
                           (mkAyStarNode 5 INVALID_TRACKDIR)
     + PublicRoad_CalculateH example_map 9 (mkAyStarNode 6 INVALID_TRACKDIR).
Proof.
  assert (F : Z.of_nat (map_log_x example_map)
              + Z.of_nat (map_log_y example_map) <= 30) by (simpl; lia).
  assert (T : 0 <= 9 < MapSize example_map) by (vm_compute; split; congruence).
  assert (A : 0 <= 5 < MapSize example_map) by (vm_compute; split; congruence).
  split; [exact F|]. split; [exact T|]. split; [exact A|].
  exact (PublicRoad_CalculateH_consistent example_map 9
           (mkAyStarNode 5 INVALID_TRACKDIR) (mkAyStarNode 6 INVALID_TRACKDIR)
           F T A example_expands_5_6).
Defined.

Lemma PublicRoad_CalculateH_zero_iff_witness :
  (map_log_x example_map <= 32)%nat /\
  0 <= 6 < 2 ^ 32 /\ 0 <= 5 < 2 ^ 32 /\
  (PublicRoad_CalculateH example_map 6 (mkAyStarNode 5 INVALID_TRACKDIR) = 0
   <-> PublicRoad_EndNodeCheck 6 (mkAyStarNode 5 INVALID_TRACKDIR) = true).
Proof.
  assert (L : (map_log_x example_map <= 32)%nat) by (simpl; lia).
  assert (T : 0 <= 6 < 2 ^ 32) by lia.
  assert (C : 0 <= 5 < 2 ^ 32) by lia.
  split; [exact L|]. split; [exact T|]. split; [exact C|].
  exact (PublicRoad_CalculateH_zero_iff example_map 6
           (mkAyStarNode 5 INVALID_TRACKDIR) L T C).
Defined.

Lemma PublicRoad_GetNeighbours_distinct_witness :
  (1 <= map_log_x example_map <= 30)%nat /\
  NoDup [9; 6; 1] /\ ~ In 5 [9; 6; 1].
Proof.
  assert (L : (1 <= map_log_x example_map <= 30)%nat) by (simpl; lia).
  split; [exact L|].
  exact (PublicRoad_GetNeighbours_distinct example_map
           (mkAyStarNode 5 INVALID_TRACKDIR)
           [mkAyStarNode 9 INVALID_TRACKDIR; mkAyStarNode 6 INVALID_TRACKDIR;
            mkAyStarNode 1 INVALID_TRACKDIR] L eq_refl).
Defined.

Lemma PublicRoad_FoundEndNode_keeps_edges_witness :
  Forall (fun n => IsValidTile example_map (tile n) = true) example_path /\
  expands_to example_after (mkAyStarNode 5 INVALID_TRACKDIR)
             (mkAyStarNode 6 INVALID_TRACKDIR).
Proof.
  assert (V : Forall (fun n => IsValidTile example_map (tile n) = true)
                     example_path) by (repeat constructor).
  split; [exact V|].
  exact (PublicRoad_FoundEndNode_keeps_edges example_pool example_map
           example_after example_path V example_path_found
           (mkAyStarNode 5 INVALID_TRACKDIR) (mkAyStarNode 6 INVALID_TRACKDIR)
           example_expands_5_6).
Defined.

Lemma PublicRoad_FoundEndNode_keeps_terrain_witness :
  MapSize example_after = MapSize example_map /\
  forall t : TileIndex,
    GetTileSlope example_after t = GetTileSlope example_map t /\
    (GetTileType example_after t = GetTileType example_map t \/
     GetTileType example_after t = MP_ROAD).
Proof.
  exact (PublicRoad_FoundEndNode_keeps_terrain example_pool example_map
           example_after example_path example_path_found).
Defined.

Lemma CleanUpRoadBits_accepts_materialized_witness :
  chain_adjacent example_map None example_path /\
  Forall (fun n => 0 <= tile n < 2 ^ 32) example_path /\
  (2 <= length example_path)%nat /\
  CleanUpRoadBits example_after 5 ROAD_SW = ROAD_SW.
Proof.
  assert (L : (2 <= length example_path)%nat) by (simpl; lia).
  split; [exact example_path_adjacent|].
  split; [exact example_path_range|]. split; [exact L|].
  apply (CleanUpRoadBits_accepts_materialized example_pool example_map
           example_after example_path example_path_adjacent
           example_path_range L example_path_found 5 ROAD_SW).
  left. reflexivity.
Defined.

Lemma GeneratePublicRoads_single_town_witness :
  sort_contract insertion_sort /\
  GeneratePublicRoads insertion_sort example_search [mkTown 0 5 300] 1
                      example_map = FreeOfZeroedEngine.
Proof.
  split; [exact insertion_sort_contract|].
  exact (GeneratePublicRoads_single_town insertion_sort example_search
           insertion_sort_contract (mkTown 0 5 300) 0 example_map).
Defined.

Lemma GeneratePublicRoads_only_adds_road_witness :
  GeneratePublicRoads insertion_sort example_search example_pool 2 example_map
  = Returned example_generated /\
  MapSize example_generated = MapSize example_map /\
  (forall t : TileIndex,
      GetTileSlope example_generated t = GetTileSlope example_map t /\
      (GetTileType example_generated t = GetTileType example_map t \/
       GetTileType example_generated t = MP_ROAD)) /\
  (forall (t : TileIndex) (old : RoadBits),
      GetRoadBits example_map t ROADTYPE_ROAD = Some old ->
      exists new, GetRoadBits example_generated t ROADTYPE_ROAD = Some new /\
                  bits_subset old new).
Proof.
  split; [exact example_generated_returned|].
  exact (GeneratePublicRoads_only_adds_road insertion_sort example_search
           example_pool 2 example_map example_generated
           example_generated_returned).
Defined.

Lemma GeneratePublicRoads_never_finds_witness :
  sort_contract insertion_sort /\
  never_finds (fun _ _ _ => None) /\
  (2 <= length example_pool)%nat /\ (length example_pool <= 3)%nat /\
  GeneratePublicRoads insertion_sort (fun _ _ _ => None) example_pool 3
                      example_map = Returned example_map.
Proof.
  assert (NF : never_finds (fun _ _ _ => None)) by (intros m s t; reflexivity).
  assert (N : (2 <= length example_pool)%nat) by (simpl; lia).
  assert (L : (length example_pool <= 3)%nat) by (simpl; lia).
  split; [exact insertion_sort_contract|]. split; [exact NF|].
  split; [exact N|]. split; [exact L|].
  exact (GeneratePublicRoads_never_finds insertion_sort (fun _ _ _ => None)
           insertion_sort_contract example_pool 3 example_map NF N L).
Defined.

Lemma HasRoadTypesAvail_road_only_witness :
  road_only_context example_game 0 = true /\
  (HasRoadTypesAvail example_game 0 ROADTYPES_TRAM = true <->
   ROADTYPES_TRAM = ROADTYPES_NONE \/ ROADTYPES_TRAM = ROADTYPES_ROAD).
Proof.
  split; [reflexivity|].
  apply (HasRoadTypesAvail_road_only example_game 0 ROADTYPES_TRAM).
  reflexivity.
Defined.

Lemma GetCompanyRoadtypes_later_witness :
  date example_game <= 720000 /\
  bits_subset (GetCompanyRoadtypes example_game 0)
              (GetCompanyRoadtypes (with_date example_game 720000) 0).
Proof.
  assert (L : date example_game <= 720000) by (simpl; lia).
  split; [exact L|].
  exact (GetCompanyRoadtypes_later example_game 0 720000 L).
Defined.

Lemma PublicRoad_GetNeighbours_symmetric_witness :
  0 <= 5 < 2 ^ 32 /\
  IsValidTile example_map 5 = true /\
  flat_or_inclined example_map 5 = true /\
  probes_adjacent example_map 6 /\
  expands_to example_map (mkAyStarNode 6 INVALID_TRACKDIR)
             (mkAyStarNode 5 INVALID_TRACKDIR).
Proof.
  assert (R : 0 <= 5 < 2 ^ 32) by lia.
  assert (P : probes_adjacent example_map 6)
    by (intros d; destruct d; vm_compute; congruence).
  split; [exact R|]. split; [reflexivity|]. split; [reflexivity|].
  split; [exact P|].
  exact (PublicRoad_GetNeighbours_symmetric example_map
           (mkAyStarNode 5 INVALID_TRACKDIR) (mkAyStarNode 6 INVALID_TRACKDIR)
           example_expands_5_6 R eq_refl (or_intror (or_intror eq_refl))
           eq_refl P).
Defined.

Lemma GetCompanyRoadtypes_iff_witness :
  intro_dates_in_range example_game /\
  (forall rt : RoadType,
      HasBit (GetCompanyRoadtypes example_game 0) (RoadType_val rt) = true <->
      exists e, In e (engine_pool example_game) /\
                engine_counts example_game 0 e = true /\
                engine_road_type e = rt) /\
  ROADTYPES_NONE <= GetCompanyRoadtypes example_game 0 <= ROADTYPES_ALL.
Proof.
  assert (R : intro_dates_in_range example_game).
  { intros e I _. simpl in I.
    destruct I as [<-|[<-|[<-|[]]]]; vm_compute; split; congruence. }
  split; [exact R|].
  exact (GetCompanyRoadtypes_iff example_game 0 R).
Defined.

(** The search graph leads from tile 5 onto the crossing, and a search for
    tile 6 ends there. *)
Lemma crossing_path_expansion :
  expansion_chain crossing_map crossing_path /\
  PublicRoad_EndNodeCheck 6 (mkAyStarNode 6 INVALID_TRACKDIR) = true.
Proof.
  split; [|reflexivity]. simpl. split; [|exact I].
  eexists. split; [vm_compute; reflexivity|]. simpl. auto.
Qed.

Lemma PublicRoad_FoundEndNode_stops_off_normal_road_witness :
  (2 <= length crossing_path)%nat /\
  In (mkAyStarNode 6 INVALID_TRACKDIR) crossing_path /\
  GetTileType crossing_map 6 = MP_ROAD /\
  IsNormalRoad crossing_map 6 = false /\
  PublicRoad_FoundEndNode example_pool crossing_map crossing_path = None.
Proof.
  assert (L : (2 <= length crossing_path)%nat) by (simpl; lia).
  assert (I : In (mkAyStarNode 6 INVALID_TRACKDIR) crossing_path)
    by (left; reflexivity).
  split; [exact L|]. split; [exact I|].
  split; [reflexivity|]. split; [reflexivity|].
  exact (PublicRoad_FoundEndNode_stops_off_normal_road example_pool
           crossing_map crossing_path (mkAyStarNode 6 INVALID_TRACKDIR)
           L I eq_refl eq_refl).
Defined.
